(** * Pebble predictor: a shallow embedding of [PP.py] and its properties

    The program is one function, [pebble_predictor], that turns a radial
    grid, a time grid and a few disk profiles into two (time x radius)
    arrays: the Stokes number of the pebbles and their mass flux.

    Conventions of the embedding.
    - A one-dimensional numpy array is a [list R]; a two-dimensional one is
      a list of rows.  Elementwise numpy arithmetic is [map] / [map2].
    - Floating-point numbers are idealised as real numbers: rounding and
      overflow are not modelled.  The only divisor that can vanish on
      well-formed input is [|eta|] (section C9); the two quotients by it,
      and the minima and the maximum taken of them, are computed with the
      infinities and the NaN numpy gives them ([xreal]).  The arrays hold
      reals: on well-formed input every stored value is finite
      ([chain_on_valid]).
    - [x ** 2.] and [x ** 3.] are the exact powers [x ^ 2] and [x ^ 3];
      [x ** 0.3333] and [x ** (-0.3333)] are [Rpower], which agrees with
      the float power on a positive base.
    - A Python exception is the outcome [None]: the function itself,
      [pebble_predictor], is written with numpy's operations, which
      broadcast an array of length one and raise on other mismatches and on
      missing indices.  The definitions of the fields ([cs], [eta], [step],
      [final], ...) are the same lines read on arrays of one length, where
      nothing broadcasts and nothing raises; [pebble_predictor_returns]
      shows that the function returns exactly them there. *)

From Stdlib Require Import Reals Lra Lia List Bool PeanoNat.
Import ListNotations.
Open Scope R_scope.

(** ** numpy-style helpers *)

Module Np.

Fixpoint map2 {A B C : Type} (f : A -> B -> C) (xs : list A) (ys : list B)
  : list C :=
  match xs, ys with
  | x :: xs', y :: ys' => f x y :: map2 f xs' ys'
  | _, _ => []
  end.

(** [np.sum] *)
Definition vsum (xs : list R) : R := fold_right Rplus 0 xs.

(** [a[i] = x] on an existing position. *)
Fixpoint upd {A : Type} (i : nat) (x : A) (l : list A) : list A :=
  match l, i with
  | [], _ => []
  | _ :: l', O => x :: l'
  | y :: l', S i' => y :: upd i' x l'
  end.

(** [a[i:i+len(v)] = v] *)
Definition upd_slice {A : Type} (i : nat) (v l : list A) : list A :=
  firstn i l ++ v ++ skipn (i + length v) l.

Definition matrix : Type := list (list R).

(** [np.zeros((m, n))] *)
Definition zeros (m n : nat) : matrix := repeat (repeat 0 n) m.

(** [a[it, :]] *)
Definition row (it : nat) (a : matrix) : list R := nth it a [].

(** [np.interp(x, xp, fp)] for one abscissa: the piecewise linear
    interpolant through the nodes, held constant outside of them. *)
Fixpoint interp_seg (x x0 f0 : R) (xp fp : list R) : R :=
  match xp, fp with
  | x1 :: xp', f1 :: fp' =>
      if Rlt_dec x x1 then (f1 - f0) / (x1 - x0) * (x - x0) + f0
      else interp_seg x x1 f1 xp' fp'
  | _, _ => f0
  end.

Definition interp1 (x : R) (xp fp : list R) : R :=
  match xp, fp with
  | x0 :: xp', f0 :: fp' =>
      if Rle_dec x x0 then f0 else interp_seg x x0 f0 xp' fp'
  | _, _ => 0
  end.

Definition interp (xs xp fp : list R) : list R :=
  map (fun x => interp1 x xp fp) xs.

(** A float that may be an infinity or a NaN; the finite ones are exact
    reals. *)
Inductive xreal : Type :=
| Fin (x : R)
| PInf
| NInf
| NaN.

(** [x / y] for finite [x] and [y]: the quotient, and for a zero divisor
    the infinity of the sign of [x], or NaN for [0 / 0].  (The zero
    divisors of the program are +0: an absolute value, or a product of one
    with positive factors.) *)
Definition xdiv (x y : R) : xreal :=
  if Req_dec_T y 0 then
    if Rlt_dec 0 x then PInf else if Rlt_dec x 0 then NInf else NaN
  else Fin (x / y).

(** [x / c] for a finite positive [c] *)
Definition xdiv_by (c : R) (x : xreal) : xreal :=
  match x with
  | Fin a => Fin (a / c)
  | _ => x
  end.

(** [np.minimum] and [np.maximum]: a NaN on either side wins. *)
Definition xmin (a b : xreal) : xreal :=
  match a, b with
  | NaN, _ | _, NaN => NaN
  | NInf, _ | _, NInf => NInf
  | PInf, x | x, PInf => x
  | Fin x, Fin y => Fin (Rmin x y)
  end.

Definition xmax (a b : xreal) : xreal :=
  match a, b with
  | NaN, _ | _, NaN => NaN
  | PInf, _ | _, PInf => PInf
  | NInf, x | x, NInf => x
  | Fin x, Fin y => Fin (Rmax x y)
  end.

(** the order of the floats: a NaN compares with nothing *)
Definition xle (a b : xreal) : Prop :=
  match a, b with
  | NaN, _ | _, NaN => False
  | NInf, _ | _, PInf => True
  | Fin x, Fin y => x <= y
  | _, _ => False
  end.

(** What a real-valued array keeps of a float: the finite value.  An
    infinity or a NaN is outside the model and is recorded as 0. *)
Definition stored (x : xreal) : R :=
  match x with
  | Fin a => a
  | _ => 0
  end.

(** *** Operations that can raise *)

Definition bind {A B : Type} (x : option A) (k : A -> option B) : option B :=
  match x with
  | Some a => k a
  | None => None
  end.

(** An elementwise operation on two one-dimensional arrays: arrays of one
    length are combined entry by entry, an array of length one is broadcast
    over the other, anything else is a ValueError. *)
Definition bcast2 {A B C : Type} (f : A -> B -> C) (a : list A) (b : list B)
  : option (list C) :=
  if (length a =? length b)%nat then Some (map2 f a b)
  else match a, b with
       | [x], _ => Some (map (f x) b)
       | _, [y] => Some (map (fun x => f x y) a)
       | _, _ => None
       end.

(** [a[i]] for [i >= 0]; IndexError out of range *)
Definition index {A : Type} (a : list A) (i : nat) : option A :=
  nth_error a i.

(** [a[-k]] for [k >= 1]; IndexError out of range *)
Definition index_end {A : Type} (a : list A) (k : nat) : option A :=
  if (k <=? length a)%nat then nth_error a (length a - k) else None.

(** the value [a[it, :] = v] writes into a row of [n] entries: [v] itself,
    or [n] copies of its entry when it has one; ValueError otherwise *)
Definition assign_row {A : Type} (n : nat) (v : list A) : option (list A) :=
  if (length v =? n)%nat then Some v
  else match v with
       | [x] => Some (repeat x n)
       | _ => None
       end.

(** writing row [it] of a matrix; IndexError when there is no such row *)
Definition store_row {A : Type} (it : nat) (v : A) (a : list A)
  : option (list A) :=
  if (it <? length a)%nat then Some (upd it v a) else None.

(** [np.interp]: ValueError when the nodes and their values differ in
    number or there is no node *)
Definition interp_np (xs xp fp : list R) : option (list R) :=
  if ((length xp =? length fp) && (1 <=? length xp))%nat
  then Some (interp xs xp fp) else None.

Fixpoint mapM {A B : Type} (f : A -> option B) (l : list A)
  : option (list B) :=
  match l with
  | [] => Some []
  | x :: l' =>
      bind (f x) (fun y => bind (mapM f l') (fun ys => Some (y :: ys)))
  end.

Fixpoint foldM {A B : Type} (f : A -> B -> option A) (l : list B) (a : A)
  : option A :=
  match l with
  | [] => Some a
  | x :: l' => bind (f a x) (foldM f l')
  end.

End Np.

Import Np.

Declare Scope vec_scope.
Delimit Scope vec_scope with vec.
Notation "a .+ b" := (map2 Rplus a b) (at level 50, left associativity) : vec_scope.
Notation "a .- b" := (map2 Rminus a b) (at level 50, left associativity) : vec_scope.
Notation "a .* b" := (map2 Rmult a b) (at level 40, left associativity) : vec_scope.
Notation "a ./ b" := (map2 Rdiv a b) (at level 40, left associativity) : vec_scope.
Notation "s *: a" := (map (Rmult s) a) (at level 40, left associativity) : vec_scope.
Notation "a /: s" := (map (fun x => x / s) a) (at level 40, left associativity) : vec_scope.
Notation "s :/ a" := (map (fun x => s / x) a) (at level 40, left associativity) : vec_scope.
#[warnings="-postfix-notation-not-level-1"]
Notation "a .^2" := (map (fun x => x ^ 2) a) (at level 30) : vec_scope.
#[warnings="-postfix-notation-not-level-1"]
Notation "a .^3" := (map (fun x => x ^ 3) a) (at level 30) : vec_scope.
Notation "x <- e ;; k" := (bind e (fun x => k))
  (at level 61, e at next level, right associativity) : vec_scope.
Open Scope vec_scope.

(** ** Constants *)

(** Modelled from the spec: the constants table ([astropy.constants]) is not
    part of the sources; these are the standard CGS values it provides for
    the Boltzmann constant, the proton mass, the gravitational constant and
    the astronomical unit. *)
Definition k_b : R := 1.380649e-16.
Definition m_p : R := 1.67262192369e-24.
Definition Grav : R := 6.6743e-8.
Definition au : R := 1.495978707e13.

(** starting size of dust [cm] *)
Definition a0 : R := 1e-4.
(** how many times growth needs to be faster than drift *)
Definition fff : R := 30.

(** ** Input *)

Record pars : Type := Pars {
  rgrid : list R;      (* radial grid [cm] *)
  tgrid : list R;      (* time grid [s] *)
  Mstar : R;           (* mass of the central star [g] *)
  SigmaGas : list R;   (* initial gas surface density [g/cm^2] *)
  SigmaDust : list R;  (* initial solids surface density [g/cm^2] *)
  T : list R;          (* gas temperature [K] *)
  alpha : R;           (* turbulence strength *)
  vfrag : R;           (* fragmentation threshold velocity [cm/s] *)
  rhop : R             (* bulk density of dust grains [g/cm^3] *)
}.

Definition N (p : pars) : nat := length (rgrid p).
Definition M (p : pars) : nat := length (tgrid p).

(** ** Static disk structure (lines 40-55, 63-64) *)

Section Static.
Variable p : pars.

(** sound speed *)
Definition cs : list R := map (fun T => sqrt (k_b * T / (2.3 * m_p))) (T p).

(** Keplerian frequency *)
Definition OmegaK : list R :=
  map (fun r3 => sqrt (Grav * Mstar p / r3)) (rgrid p .^3).

(** midplane gas density *)
Definition rhog : list R := SigmaGas p .* OmegaK ./ (sqrt (2 * PI) *: cs).

(** gas pressure *)
Definition pg : list R := rhog .* cs .^2.

(** grid cell interfaces *)
Definition rInt : list R :=
  let r := rgrid p in
  let a := repeat 0 (length r + 1) in
  let a := upd 0 (1.5 * nth 0 r 0 - 0.5 * nth 1 r 0) a in
  let a := upd_slice 1 (0.5 *: (tl r .+ removelast r)) a in
  upd (length r) (1.5 * last r 0 - 0.5 * nth (length r - 2) r 0) a.

Definition dr : list R := tl rInt .- removelast rInt.

(** gas pressure at the interfaces *)
Definition pgInt : list R := interp rInt (rgrid p) pg.

(** pressure gradient *)
Definition eta : list R :=
  (tl pgInt .- removelast pgInt) ./ dr ./ (2 *: rhog .* OmegaK .^2 .* rgrid p).

(** Stokes number in the turbulence-induced fragmentation regime *)
Definition stfrag : list R :=
  (0.37 * vfrag p ^ 2) :/ (3 * alpha p *: cs .^2).

(** Stokes number in the drift-induced fragmentation regime *)
Definition stdf : list xreal :=
  map (xdiv (0.37 * vfrag p)) (2 *: map Rabs eta .* OmegaK .* rgrid p).

(** Stokes number of the monomers *)
Definition st0 : list R := (0.5 * PI * a0 * rhop p) :/ SigmaGas p.

Definition Z0 : list R := SigmaDust p ./ SigmaGas p.

(** growth timescale *)
Definition tgrowth : list R :=
  1 :/ (Rpower (alpha p / 1e-4) 0.3333 *: Z0 .* OmegaK
        .* map (fun x => Rpower x (- 0.3333)) (rgrid p /: au)).

End Static.

(** ** The evolving fields (lines 58-82) *)

Record state : Type := State {
  st : matrix;       (* Stokes number prediction *)
  flux : matrix;     (* pebble flux prediction *)
  massout : matrix   (* solids mass outside of the cell *)
}.

Section Evolution.
Variable p : pars.

(** pebble drift velocity (lines 68 and 80) *)
Definition drift_velocity (strow : list R) : list R :=
  2 *: map Rabs (eta p) .* OmegaK p .* rgrid p .* strow
  ./ map (Rplus 1) (strow .^2).

(** flux restriction if the growth timescale is too long (line 81) *)
Definition growth_cap (vv : list R) : list R :=
  map2 Rmin vv (rgrid p ./ tgrowth p /: fff).

(** initial mass budget of cell [ir] (line 66) *)
Definition massout0 (ir : nat) : R :=
  vsum (2 * PI *: skipn ir (rgrid p) .* skipn ir (dr p)
        .* skipn ir (SigmaDust p)).

(** initial condition (lines 58-69) *)
Definition initial : state :=
  let massout := zeros (M p) (N p) in
  let st := zeros (M p) (N p) in
  let flux := zeros (M p) (N p) in
  let massout := upd 0 (map massout0 (seq 0 (N p))) massout in
  let st := upd 0 (st0 p) st in
  let vv := drift_velocity (row 0 st) in
  let flux := upd 0 (2 * PI *: rgrid p .* vv .* SigmaDust p) flux in
  State st flux massout.

(** one pass of the time loop (lines 73-82) *)
Definition step (s : state) (it : nat) : state :=
  let massout :=
    upd it (row (it - 1) (massout s)
            .- map (fun f => f * (nth it (tgrid p) 0 - nth (it - 1) (tgrid p) 0))
                   (row (it - 1) (flux s)))
        (massout s) in
  let Z := Z0 p .* (row it massout ./ row 0 massout) in
  let stini := st0 p .* map exp (nth it (tgrid p) 0 :/ tgrowth p) in
  let stdrift := map (xdiv_by fff) (map2 xdiv Z (map Rabs (eta p))) in
  (* st[it,:] is assigned three times before anything else reads it; the
     row is kept aside, with its infinities, until its last value is
     stored *)
  let strow :=
    map2 xmin (map2 xmin (map Fin (stfrag p)) (stdf p)) (map Fin stini) in
  let strow := map2 xmin strow stdrift in
  let strow := map2 xmax strow (map Fin (st0 p)) in
  let st := upd it (map stored strow) (st s) in
  let vv := drift_velocity (row it st) in
  let vv := growth_cap vv in
  let flux :=
    upd it (2 * PI *: rgrid p .* vv .* SigmaDust p
            .* (row it massout ./ row 0 massout)) (flux s) in
  State st flux massout.

(** the fields after the time loop *)
Definition final : state := fold_left step (seq 1 (M p - 1)) initial.

(** The shapes on which every operation of the function is elementwise on
    arrays of one length and every index exists: a radial grid of at least
    two points, a time grid that is not empty and three profiles of the
    radial grid's length. *)
Definition shapes_ok : bool :=
  (2 <=? N p)%nat && (1 <=? M p)%nat
  && (length (SigmaGas p) =? N p)%nat
  && (length (SigmaDust p) =? N p)%nat
  && (length (T p) =? N p)%nat.

End Evolution.

(** ** The function, with numpy's broadcasting and exceptions *)

(** the arrays of lines 40-64 that take two arrays to compute *)
Record statics : Type := Statics {
  s_dr : list R;
  s_eta : list R;
  s_stdf : list xreal;
  s_Z0 : list R;
  s_tgrowth : list R
}.

Section Numpy.
Variable p : pars.

(* line 42 *)
Definition rhog_np : option (list R) :=
  a <- bcast2 Rmult (SigmaGas p) (OmegaK p) ;;
  bcast2 Rdiv a (sqrt (2 * PI) *: cs p).

(* line 43 *)
Definition pg_np (rhog : list R) : option (list R) :=
  bcast2 Rmult rhog (cs p .^2).

(* lines 45-48 *)
Definition rInt_np : option (list R) :=
  let r := rgrid p in
  let a := repeat 0 (length r + 1) in
  r0 <- index r 0 ;;
  r1 <- index r 1 ;;
  let a := upd 0 (1.5 * r0 - 0.5 * r1) a in
  let a := upd_slice 1 (0.5 *: (tl r .+ removelast r)) a in
  rl <- index_end r 1 ;;
  rl2 <- index_end r 2 ;;
  Some (upd (length r) (1.5 * rl - 0.5 * rl2) a).

(* line 51 *)
Definition eta_np (pgInt dr rhog : list R) : option (list R) :=
  b <- bcast2 Rdiv (tl pgInt .- removelast pgInt) dr ;;
  c1 <- bcast2 Rmult (2 *: rhog) (OmegaK p .^2) ;;
  c2 <- bcast2 Rmult c1 (rgrid p) ;;
  bcast2 Rdiv b c2.

(* line 54 *)
Definition stdf_np (eta : list R) : option (list xreal) :=
  c1 <- bcast2 Rmult (2 *: map Rabs eta) (OmegaK p) ;;
  c2 <- bcast2 Rmult c1 (rgrid p) ;;
  Some (map (xdiv (0.37 * vfrag p)) c2).

(* line 63 *)
Definition Z0_np : option (list R) :=
  bcast2 Rdiv (SigmaDust p) (SigmaGas p).

(* line 64 *)
Definition tgrowth_np (Z0 : list R) : option (list R) :=
  c1 <- bcast2 Rmult (Rpower (alpha p / 1e-4) 0.3333 *: Z0) (OmegaK p) ;;
  c2 <- bcast2 Rmult c1
         (map (fun x => Rpower x (- 0.3333)) (rgrid p /: au)) ;;
  Some (1 :/ c2).

(* lines 40-55, 63-64 *)
Definition statics_np : option statics :=
  rhog <- rhog_np ;;
  pg <- pg_np rhog ;;
  rInt <- rInt_np ;;
  let dr := tl rInt .- removelast rInt in
  pgInt <- interp_np rInt (rgrid p) pg ;;
  eta <- eta_np pgInt dr rhog ;;
  stdf <- stdf_np eta ;;
  Z0 <- Z0_np ;;
  tgrowth <- tgrowth_np Z0 ;;
  Some (Statics dr eta stdf Z0 tgrowth).

Variable sf : statics.

(* line 66, the sum of one cell *)
Definition massout0_np (ir : nat) : option R :=
  a <- bcast2 Rmult (2 * PI *: skipn ir (rgrid p)) (skipn ir (s_dr sf)) ;;
  b <- bcast2 Rmult a (skipn ir (SigmaDust p)) ;;
  Some (vsum b).

(* lines 68 and 80 *)
Definition drift_velocity_np (strow : list R) : option (list R) :=
  c1 <- bcast2 Rmult (2 *: map Rabs (s_eta sf)) (OmegaK p) ;;
  c2 <- bcast2 Rmult c1 (rgrid p) ;;
  c3 <- bcast2 Rmult c2 strow ;;
  bcast2 Rdiv c3 (map (Rplus 1) (strow .^2)).

(* line 81 *)
Definition growth_cap_np (vv : list R) : option (list R) :=
  c <- bcast2 Rdiv (rgrid p) (s_tgrowth sf) ;;
  bcast2 Rmin vv (c /: fff).

(* lines 58-69; the entries massout[0, ir] are written as one row *)
Definition initial_np (ts : list R) : option state :=
  let massout := zeros (length ts) (N p) in
  let st := zeros (length ts) (N p) in
  let flux := zeros (length ts) (N p) in
  m0 <- mapM massout0_np (seq 0 (N p)) ;;
  massout <- store_row 0 m0 massout ;;
  s0 <- assign_row (N p) (st0 p) ;;
  st <- store_row 0 s0 st ;;
  s0 <- index st 0 ;;
  vv <- drift_velocity_np s0 ;;
  f1 <- bcast2 Rmult (2 * PI *: rgrid p) vv ;;
  f2 <- bcast2 Rmult f1 (SigmaDust p) ;;
  f <- assign_row (N p) f2 ;;
  flux <- store_row 0 f flux ;;
  Some (State st flux massout).

(* lines 73-82 *)
Definition step_np (ts : list R) (s : state) (it : nat) : option state :=
  mprev <- index (massout s) (it - 1) ;;
  fprev <- index (flux s) (it - 1) ;;
  t <- index ts it ;;
  tprev <- index ts (it - 1) ;;
  m1 <- bcast2 Rminus mprev (map (fun f => f * (t - tprev)) fprev) ;;
  m <- assign_row (N p) m1 ;;
  massout <- store_row it m (massout s) ;;
  mit <- index massout it ;;
  m0 <- index massout 0 ;;
  q <- bcast2 Rdiv mit m0 ;;
  Z <- bcast2 Rmult (s_Z0 sf) q ;;
  stini <- bcast2 Rmult (st0 p) (map exp (t :/ s_tgrowth sf)) ;;
  d <- bcast2 xdiv Z (map Rabs (s_eta sf)) ;;
  let stdrift := map (xdiv_by fff) d in
  c <- bcast2 xmin (map Fin (stfrag p)) (s_stdf sf) ;;
  c <- bcast2 xmin c (map Fin stini) ;;
  strow <- assign_row (N p) c ;;
  c <- bcast2 xmin strow stdrift ;;
  strow <- assign_row (N p) c ;;
  c <- bcast2 xmax strow (map Fin (st0 p)) ;;
  strow <- assign_row (N p) c ;;
  st <- store_row it (map stored strow) (st s) ;;
  srow <- index st it ;;
  vv <- drift_velocity_np srow ;;
  vv <- growth_cap_np vv ;;
  f1 <- bcast2 Rmult (2 * PI *: rgrid p) vv ;;
  f2 <- bcast2 Rmult f1 (SigmaDust p) ;;
  q <- bcast2 Rdiv mit m0 ;;
  f3 <- bcast2 Rmult f2 q ;;
  f <- assign_row (N p) f3 ;;
  flux <- store_row it f (flux s) ;;
  Some (State st flux massout).

(* lines 58-83 *)
Definition evolve_np (ts : list R) : option (matrix * matrix) :=
  s0 <- initial_np ts ;;
  s <- foldM (step_np ts) (seq 1 (length ts - 1)) s0 ;;
  Some (st s, flux s).

End Numpy.

(** the arrays of the static phase, on arrays of one length *)
Definition the_statics (p : pars) : statics :=
  Statics (dr p) (eta p) (stdf p) (Z0 p) (tgrowth p).

(** every array of the state has [M] rows of [N] entries *)
Definition shaped (p : pars) (s : state) : Prop :=
  (length (st s) = M p /\ Forall (fun r => length r = N p) (st s))
  /\ (length (flux s) = M p /\ Forall (fun r => length r = N p) (flux s))
  /\ (length (massout s) = M p
      /\ Forall (fun r => length r = N p) (massout s)).

(** Two states agree on the rows up to [k]. *)
Definition same_rows (k : nat) (s s' : state) : Prop :=
  forall j, (j <= k)%nat ->
    index (st s') j = index (st s) j
    /\ index (flux s') j = index (flux s) j
    /\ index (massout s') j = index (massout s) j.

Definition pebble_predictor (p : pars) : option (matrix * matrix) :=
  sf <- statics_np p ;;
  evolve_np p sf (tgrid p).

(** ** Reading the arrays *)

(** [v # i] is [v[i]]; a matrix entry [a[it, ir]] is [row it a # ir]. *)
Notation "v # i" := (nth i v 0) (at level 20, left associativity) : vec_scope.
(** the same on an array of floats *)
Notation "v ## i" := (nth i v NaN) (at level 20, left associativity) : vec_scope.

(** the fields after the passes [it = 1 .. k] of the time loop *)
Definition run (p : pars) (k : nat) : state :=
  fold_left (step p) (seq 1 k) (initial p).

(** the drift-limited Stokes number of pass [it] (lines 74 and 76), read
    from the mass budget the pass has just stored *)
Definition stdrift (p : pars) (s : state) (it : nat) : list xreal :=
  map (xdiv_by fff)
      (map2 xdiv (Z0 p .* (row it (massout s) ./ row 0 (massout s)))
                 (map Rabs (eta p))).

(** the growth-limited Stokes number of pass [it] (line 75) *)
Definition stini (p : pars) (it : nat) : list R :=
  st0 p .* map exp (nth it (tgrid p) 0 :/ tgrowth p).

(** ** Well-formed input *)

Definition increasing (l : list R) : Prop :=
  forall i, (S i < length l)%nat -> l # i < l # (S i).

Definition positive (l : list R) : Prop :=
  forall i, (i < length l)%nat -> 0 < l # i.

Definition nonnegative (l : list R) : Prop :=
  forall i, (i < length l)%nat -> 0 <= l # i.

(** The preconditions the interface states: a radial grid of at least two
    positive increasing radii, a non-empty non-negative increasing time grid,
    positive profiles of the radial grid's length and positive scalars. *)
Record valid (p : pars) : Prop := Valid {
  v_N : (2 <= N p)%nat;
  v_M : (1 <= M p)%nat;
  v_len_gas : length (SigmaGas p) = N p;
  v_len_dust : length (SigmaDust p) = N p;
  v_len_T : length (T p) = N p;
  v_r_pos : positive (rgrid p);
  v_r_inc : increasing (rgrid p);
  v_t_nonneg : nonnegative (tgrid p);
  v_t_inc : increasing (tgrid p);
  v_gas : positive (SigmaGas p);
  v_dust : positive (SigmaDust p);
  v_T : positive (T p);
  v_Mstar : 0 < Mstar p;
  v_alpha : 0 < alpha p;
  v_vfrag : 0 < vfrag p;
  v_rhop : 0 < rhop p
}.

(** The mass remaining outward of cell [ir] as the specification words it:
    the sum over the cells [j >= ir] of [2 pi r_j dr_j SigmaDust_j]. *)
Definition mass_outward_spec (p : pars) (ir : nat) : R :=
  vsum (map (fun j => 2 * PI * rgrid p # j * dr p # j * SigmaDust p # j)
            (seq ir (N p - ir))).

(** The flux of pass [it] is this rate times the fraction of the initial
    mass budget that is left (line 82). *)
Definition rate (p : pars) (it ir : nat) : R :=
  2 * PI * rgrid p # ir
  * growth_cap p (drift_velocity p (row it (st (final p)))) # ir
  * SigmaDust p # ir.

(** the ceiling of the growth and fragmentation regimes at pass [it]
    (line 77) *)
Definition ceiling (p : pars) (it ir : nat) : xreal :=
  xmin (xmin (Fin (stfrag p # ir)) (stdf p ## ir)) (Fin (stini p it # ir)).

(** the clamp chain of pass [it] (lines 77-79), entry by entry *)
Definition chain (p : pars) (s : state) (it ir : nat) : xreal :=
  xmax (xmin (ceiling p it ir) (stdrift p s it ## ir)) (Fin (st0 p # ir)).

(** the same call on another time grid *)
Definition with_tgrid (p : pars) (ts : list R) : pars :=
  Pars (rgrid p) ts (Mstar p) (SigmaGas p) (SigmaDust p) (T p) (alpha p)
       (vfrag p) (rhop p).

(** the mass of dust in cell [ir] at the start (one term of line 66) *)
Definition cell_mass (p : pars) (ir : nat) : R :=
  2 * PI * rgrid p # ir * dr p # ir * SigmaDust p # ir.

(** the largest rate at which the growth cap of line 81 lets a cell lose
    mass *)
Definition capped_rate (p : pars) (ir : nat) : R :=
  2 * PI * rgrid p # ir * (rgrid p # ir / tgrowth p # ir / fff)
  * SigmaDust p # ir.

(** ** Sample inputs *)

(** Two radii at 1 and 4 au around a solar-mass star, marched with two very
    long time steps. *)
Definition coarse : pars :=
  Pars [1.5e13; 6e13] [0; 1e15; 2e15] 2e33 [10; 10] [0.1; 0.1] [200; 200]
       1e-3 1000 1.6.

(** The same disk with grains that fragment at 1 cm/s. *)
Definition fragile : pars :=
  Pars [1.5e13; 6e13] [0; 1e10] 2e33 [10; 10] [0.1; 0.1] [200; 200]
       1e-3 1 1.6.

(** The same disk with a gas profile that makes the midplane pressure the
    same at both radii. *)
Definition flat : pars :=
  Pars [1.5e13; 6e13] [0; 1e10] 2e33 [10; 80] [0.1; 0.1] [200; 200]
       1e-3 1000 1.6.


(** The three-point grid of the interface example. *)
Definition grid124 : pars :=
  Pars [1; 2; 4] [0; 1] 2e33 [10; 10; 10] [0.1; 0.1; 0.1] [200; 200; 200]
       1e-3 1000 1.6.

(** The coarse disk marched with two short time steps. *)
Definition fine : pars := with_tgrid coarse [0; 1e9; 2e9].



(** ** Facts on the numpy-style helpers *)

Section NpFacts.
Context {A B C : Type}.

Lemma length_map2 (f : A -> B -> C) xs ys :
  length (map2 f xs ys) = Nat.min (length xs) (length ys).
Proof.
  revert ys; induction xs as [|x xs IH]; intros [|y ys]; simpl; auto.
Qed.

Lemma nth_map2 (f : A -> B -> C) xs ys i da db dc :
  (i < length xs)%nat -> (i < length ys)%nat ->
  nth i (map2 f xs ys) dc = f (nth i xs da) (nth i ys db).
Proof.
  revert ys i; induction xs as [|x xs IH]; intros [|y ys] [|i]; simpl;
    try lia; auto.
  intros; apply IH; lia.
Qed.

Lemma nth_map_lt (f : A -> B) xs i da db :
  (i < length xs)%nat -> nth i (map f xs) db = f (nth i xs da).
Proof.
  intros Hi. rewrite (nth_indep _ db (f da)) by (rewrite length_map; lia).
  apply map_nth.
Qed.

Lemma length_upd i (x : A) l : length (upd i x l) = length l.
Proof.
  revert i; induction l as [|y l IH]; intros [|i]; simpl; auto.
Qed.

Lemma nth_upd_same i (x : A) l d :
  (i < length l)%nat -> nth i (upd i x l) d = x.
Proof.
  revert i; induction l as [|y l IH]; intros [|i]; simpl; try lia; auto.
  intros; apply IH; lia.
Qed.

Lemma nth_upd_other i j (x : A) l d :
  i <> j -> nth j (upd i x l) d = nth j l d.
Proof.
  revert i j; induction l as [|y l IH]; intros [|i] [|j]; simpl;
    try congruence; auto.
Qed.

Lemma nth_tl i (l : list A) d : nth i (tl l) d = nth (S i) l d.
Proof. destruct l; simpl; auto. destruct i; auto. Qed.

Lemma length_removelast (l : list A) :
  length (removelast l) = (length l - 1)%nat.
Proof.
  rewrite removelast_firstn_len, length_firstn. lia.
Qed.

Lemma nth_removelast i (l : list A) d :
  (i < length l - 1)%nat -> nth i (removelast l) d = nth i l d.
Proof.
  intros Hi. rewrite removelast_firstn_len, nth_firstn.
  destruct (Nat.ltb_spec i (Init.Nat.pred (length l))); auto. lia.
Qed.

Lemma last_as_nth (l : list A) d : last l d = nth (length l - 1) l d.
Proof.
  induction l as [|x l IH]; auto.
  destruct l as [|y l]; auto.
  change (last (x :: y :: l) d) with (last (y :: l) d). rewrite IH.
  simpl. now rewrite Nat.sub_0_r.
Qed.

Lemma length_upd_slice i (v l : list A) :
  (i + length v <= length l)%nat -> length (upd_slice i v l) = length l.
Proof.
  intros H. unfold upd_slice.
  rewrite !length_app, length_firstn, length_skipn. lia.
Qed.

Lemma nth_upd_slice_before i j (v l : list A) d :
  (j < i <= length l)%nat -> nth j (upd_slice i v l) d = nth j l d.
Proof.
  intros H. unfold upd_slice.
  rewrite app_nth1 by (rewrite length_firstn; lia).
  rewrite nth_firstn. destruct (Nat.ltb_spec j i); auto; lia.
Qed.

Lemma nth_upd_slice_in i j (v l : list A) d :
  (i <= length l)%nat -> (i <= j < i + length v)%nat ->
  nth j (upd_slice i v l) d = nth (j - i) v d.
Proof.
  intros Hi H. unfold upd_slice.
  rewrite app_nth2 by (rewrite length_firstn; lia).
  rewrite length_firstn, Nat.min_l by lia.
  apply app_nth1; lia.
Qed.

Lemma nth_upd_slice_after i j (v l : list A) d :
  (i <= length l)%nat -> (i + length v <= j)%nat ->
  nth j (upd_slice i v l) d = nth j l d.
Proof.
  intros Hi H. unfold upd_slice.
  rewrite app_nth2 by (rewrite length_firstn; lia).
  rewrite length_firstn, Nat.min_l by lia.
  rewrite app_nth2 by lia.
  rewrite nth_skipn. f_equal; lia.
Qed.

End NpFacts.

(** ** Cell interfaces and cell widths *)

Section Interfaces.
Variable p : pars.
Hypothesis HN : (2 <= N p)%nat.

Lemma length_rInt : length (rInt p) = (N p + 1)%nat.
Proof.
  unfold rInt, N in *.
  rewrite length_upd, length_upd_slice; rewrite length_upd, repeat_length;
    auto.
  rewrite length_map, length_map2, length_tl, length_removelast. lia.
Qed.

Lemma rInt_first :
  nth 0 (rInt p) 0 = 1.5 * nth 0 (rgrid p) 0 - 0.5 * nth 1 (rgrid p) 0.
Proof.
  unfold rInt, N in *.
  rewrite nth_upd_other by lia.
  rewrite nth_upd_slice_before by (rewrite length_upd, repeat_length; lia).
  apply nth_upd_same. rewrite repeat_length; lia.
Qed.

Lemma rInt_interior i :
  (S i < N p)%nat ->
  nth (S i) (rInt p) 0 = 0.5 * (nth (S i) (rgrid p) 0 + nth i (rgrid p) 0).
Proof.
  intros Hi. unfold rInt, N in *.
  rewrite nth_upd_other by lia.
  rewrite nth_upd_slice_in.
  - rewrite (nth_map_lt _ _ _ 0)
      by (rewrite length_map2, length_tl, length_removelast; lia).
    rewrite (nth_map2 _ _ _ _ 0 0)
      by (rewrite ?length_tl, ?length_removelast; lia).
    rewrite nth_tl, nth_removelast by lia.
    now replace (S (S i - 1)) with (S i) by lia;
      replace (S i - 1)%nat with i by lia.
  - rewrite length_upd, repeat_length; lia.
  - rewrite length_map, length_map2, length_tl, length_removelast. lia.
Qed.

Lemma rInt_last :
  nth (N p) (rInt p) 0
  = 1.5 * nth (N p - 1) (rgrid p) 0 - 0.5 * nth (N p - 2) (rgrid p) 0.
Proof.
  unfold rInt, N in *.
  rewrite nth_upd_same.
  - now rewrite last_as_nth.
  - rewrite length_upd_slice; rewrite length_upd, repeat_length; try lia.
    rewrite length_map, length_map2, length_tl, length_removelast. lia.
Qed.

End Interfaces.

(** ** The time loop, row by row *)

Section Rows.
Variable p : pars.

Lemma row_upd_same it v (a : matrix) :
  (it < length a)%nat -> row it (upd it v a) = v.
Proof. apply nth_upd_same. Qed.

Lemma row_upd_other it j v (a : matrix) :
  it <> j -> row j (upd it v a) = row j a.
Proof. apply nth_upd_other. Qed.

Lemma step_rows s it :
  length (st (step p s it)) = length (st s)
  /\ length (flux (step p s it)) = length (flux s)
  /\ length (massout (step p s it)) = length (massout s).
Proof. unfold step; simpl. now rewrite !length_upd. Qed.

Lemma step_other s it j :
  it <> j ->
  row j (st (step p s it)) = row j (st s)
  /\ row j (flux (step p s it)) = row j (flux s)
  /\ row j (massout (step p s it)) = row j (massout s).
Proof.
  intros H. unfold step; simpl. now rewrite !row_upd_other by exact H.
Qed.

Lemma step_massout_row s it :
  (it < length (massout s))%nat ->
  row it (massout (step p s it))
  = row (it - 1) (massout s)
    .- map (fun f => f * (tgrid p # it - tgrid p # (it - 1)))
           (row (it - 1) (flux s)).
Proof. intros H. unfold step; simpl. now rewrite row_upd_same. Qed.

Lemma step_st_row s it :
  (it < length (st s))%nat ->
  row it (st (step p s it))
  = map stored
      (map2 xmax
         (map2 xmin
            (map2 xmin (map2 xmin (map Fin (stfrag p)) (stdf p))
                       (map Fin (stini p it)))
            (stdrift p (step p s it) it))
         (map Fin (st0 p))).
Proof.
  intros H. unfold step, stdrift, stini; simpl.
  now rewrite !row_upd_same by (rewrite ?length_upd; exact H).
Qed.

Lemma step_flux_row s it :
  (it < length (flux s))%nat ->
  row it (flux (step p s it))
  = 2 * PI *: rgrid p
    .* growth_cap p (drift_velocity p (row it (st (step p s it))))
    .* SigmaDust p
    .* (row it (massout (step p s it)) ./ row 0 (massout (step p s it))).
Proof. intros H. unfold step; simpl. now rewrite row_upd_same. Qed.

Lemma run_S k : run p (S k) = step p (run p k) (S k).
Proof. unfold run. now rewrite seq_S, fold_left_app. Qed.

Lemma final_run : final p = run p (M p - 1).
Proof. reflexivity. Qed.

Lemma run_rows k :
  length (st (run p k)) = M p
  /\ length (flux (run p k)) = M p
  /\ length (massout (run p k)) = M p.
Proof.
  induction k as [|k IH].
  - unfold run, initial, zeros; cbn [fold_left seq st flux massout].
    now rewrite !length_upd, !repeat_length.
  - rewrite run_S. destruct (step_rows (run p k) (S k)) as (H1 & H2 & H3).
    now rewrite H1, H2, H3.
Qed.

Lemma run_stable j k k' :
  (j <= k)%nat -> (k <= k')%nat ->
  row j (st (run p k')) = row j (st (run p k))
  /\ row j (flux (run p k')) = row j (flux (run p k))
  /\ row j (massout (run p k')) = row j (massout (run p k)).
Proof.
  intros Hj Hk. induction Hk as [|k' Hk IH]; auto.
  rewrite run_S.
  destruct (step_other (run p k') (S k') j) as (H1 & H2 & H3); [lia|].
  now rewrite H1, H2, H3.
Qed.

(** Row 0 is the initial condition. *)
Lemma final_row0 :
  (1 <= M p)%nat ->
  row 0 (st (final p)) = st0 p
  /\ row 0 (massout (final p)) = map (massout0 p) (seq 0 (N p))
  /\ row 0 (flux (final p))
     = 2 * PI *: rgrid p .* drift_velocity p (st0 p) .* SigmaDust p.
Proof.
  intros HM. rewrite final_run.
  destruct (run_stable 0 0 (M p - 1)) as (H1 & H2 & H3); try lia.
  rewrite H1, H2, H3.
  unfold run, initial, zeros; cbn [fold_left seq st flux massout].
  rewrite !row_upd_same by (rewrite repeat_length; lia).
  auto.
Qed.

(** Row [it >= 1] is what pass [it] of the loop stores, read from row
    [it - 1]. *)
Lemma final_rec it :
  (1 <= it < M p)%nat ->
  row it (massout (final p))
  = row (it - 1) (massout (final p))
    .- map (fun f => f * (tgrid p # it - tgrid p # (it - 1)))
           (row (it - 1) (flux (final p)))
  /\ row it (st (final p))
     = map stored
         (map2 xmax
            (map2 xmin
               (map2 xmin (map2 xmin (map Fin (stfrag p)) (stdf p))
                          (map Fin (stini p it)))
               (stdrift p (final p) it))
            (map Fin (st0 p)))
  /\ row it (flux (final p))
     = 2 * PI *: rgrid p
       .* growth_cap p (drift_velocity p (row it (st (final p))))
       .* SigmaDust p
       .* (row it (massout (final p)) ./ row 0 (massout (final p))).
Proof.
  intros Hit. rewrite final_run.
  destruct it as [|k]; [lia|].
  replace (S k - 1)%nat with k by lia.
  destruct (run_stable (S k) (S k) (M p - 1)) as (S1 & S2 & S3); try lia.
  destruct (run_stable k k (M p - 1)) as (P1 & P2 & P3); try lia.
  destruct (run_stable 0 (S k) (M p - 1)) as (Z1 & Z2 & Z3); try lia.
  destruct (run_rows k) as (L1 & L2 & L3).
  pose proof (step_massout_row (run p k) (S k)) as Hm.
  pose proof (step_st_row (run p k) (S k)) as Hs.
  pose proof (step_flux_row (run p k) (S k)) as Hf.
  rewrite <- run_S in Hm, Hs, Hf.
  replace (S k - 1)%nat with k in Hm by lia.
  unfold stdrift in *.
  rewrite S1, S2, S3, P2, P3, Z3.
  repeat split; [apply Hm | apply Hs | apply Hf]; lia.
Qed.

End Rows.

(** ** The static fields, entry by entry *)

Lemma shapes_ok_iff p :
  shapes_ok p = true <->
  (2 <= N p)%nat /\ (1 <= M p)%nat /\ length (SigmaGas p) = N p
  /\ length (SigmaDust p) = N p /\ length (T p) = N p.
Proof.
  unfold shapes_ok.
  rewrite !andb_true_iff, !Nat.leb_le, !Nat.eqb_eq. tauto.
Qed.

Lemma valid_shapes p : valid p -> shapes_ok p = true.
Proof.
  intros []. apply shapes_ok_iff. auto.
Qed.

Create Rewrite HintDb len.
#[local] Hint Rewrite @length_map @length_map2 @length_tl @length_removelast
  @length_upd @repeat_length @length_seq @length_skipn : len.

Section Entries.
Variable p : pars.
Hypothesis Hshape : shapes_ok p = true.

Let HN : (2 <= length (rgrid p))%nat.
Proof. apply shapes_ok_iff in Hshape. apply Hshape. Qed.
Let HG : length (SigmaGas p) = length (rgrid p).
Proof. apply shapes_ok_iff in Hshape. apply Hshape. Qed.
Let HD : length (SigmaDust p) = length (rgrid p).
Proof. apply shapes_ok_iff in Hshape. apply Hshape. Qed.
Let HT : length (T p) = length (rgrid p).
Proof. apply shapes_ok_iff in Hshape. apply Hshape. Qed.
Let HI : length (rInt p) = (length (rgrid p) + 1)%nat.
Proof. apply length_rInt. exact HN. Qed.

Ltac len :=
  unfold N in *; autorewrite with len; rewrite ?HI, ?HG, ?HD, ?HT; lia.
Ltac vnth :=
  repeat first [ rewrite (nth_map2 _ _ _ _ 0 0) by len
               | rewrite (nth_map_lt _ _ _ 0) by len ].

Lemma length_cs : length (cs p) = N p.
Proof. unfold cs. len. Qed.

Lemma length_OmegaK : length (OmegaK p) = N p.
Proof. unfold OmegaK. len. Qed.

Lemma length_rhog : length (rhog p) = N p.
Proof. unfold rhog, OmegaK, cs. len. Qed.

Lemma length_pg : length (pg p) = N p.
Proof. unfold pg, rhog, OmegaK, cs. len. Qed.

Lemma length_dr : length (dr p) = N p.
Proof. unfold dr. len. Qed.

Lemma length_pgInt : length (pgInt p) = (N p + 1)%nat.
Proof. unfold pgInt, interp. len. Qed.

Lemma length_eta : length (eta p) = N p.
Proof. unfold eta, pgInt, interp, dr, rhog, OmegaK, cs. len. Qed.

Lemma length_st0 : length (st0 p) = N p.
Proof. unfold st0. len. Qed.

Lemma length_stfrag : length (stfrag p) = N p.
Proof. unfold stfrag, cs. len. Qed.

Lemma length_stdf : length (stdf p) = N p.
Proof. unfold stdf, OmegaK. autorewrite with len. rewrite length_eta. len. Qed.

Lemma length_Z0 : length (Z0 p) = N p.
Proof. unfold Z0. len. Qed.

Lemma length_tgrowth : length (tgrowth p) = N p.
Proof. unfold tgrowth, Z0, OmegaK. len. Qed.

Lemma cs_at ir :
  (ir < N p)%nat -> cs p # ir = sqrt (k_b * T p # ir / (2.3 * m_p)).
Proof. intros H. unfold cs. now vnth. Qed.

Lemma OmegaK_at ir :
  (ir < N p)%nat ->
  OmegaK p # ir = sqrt (Grav * Mstar p / rgrid p # ir ^ 3).
Proof. intros H. unfold OmegaK. now vnth. Qed.

Lemma rhog_at ir :
  (ir < N p)%nat ->
  rhog p # ir
  = SigmaGas p # ir * OmegaK p # ir / (sqrt (2 * PI) * cs p # ir).
Proof.
  intros H. pose proof length_cs. pose proof length_OmegaK.
  unfold rhog. now vnth.
Qed.

Lemma pg_at ir :
  (ir < N p)%nat -> pg p # ir = rhog p # ir * cs p # ir ^ 2.
Proof.
  intros H. pose proof length_cs. pose proof length_rhog.
  unfold pg. now vnth.
Qed.

Lemma dr_at ir :
  (ir < N p)%nat -> dr p # ir = rInt p # (S ir) - rInt p # ir.
Proof.
  intros H. unfold dr. vnth. now rewrite nth_tl, nth_removelast by len.
Qed.

Lemma pgInt_at i :
  (i <= N p)%nat -> pgInt p # i = interp1 (rInt p # i) (rgrid p) (pg p).
Proof. intros H. unfold pgInt, interp. now vnth. Qed.

Lemma eta_at ir :
  (ir < N p)%nat ->
  eta p # ir
  = (pgInt p # (S ir) - pgInt p # ir) / dr p # ir
    / (2 * rhog p # ir * OmegaK p # ir ^ 2 * rgrid p # ir).
Proof.
  intros H. pose proof length_pgInt. pose proof length_dr.
  pose proof length_rhog. pose proof length_OmegaK.
  unfold eta. vnth. now rewrite nth_tl, nth_removelast by len.
Qed.

Lemma stfrag_at ir :
  (ir < N p)%nat ->
  stfrag p # ir = 0.37 * vfrag p ^ 2 / (3 * alpha p * cs p # ir ^ 2).
Proof. intros H. pose proof length_cs. unfold stfrag. now vnth. Qed.

Lemma stdf_at ir :
  (ir < N p)%nat ->
  stdf p ## ir
  = xdiv (0.37 * vfrag p)
         (2 * Rabs (eta p # ir) * OmegaK p # ir * rgrid p # ir).
Proof.
  intros H. pose proof length_eta. pose proof length_OmegaK.
  unfold stdf. now vnth.
Qed.

Lemma st0_at ir :
  (ir < N p)%nat ->
  st0 p # ir = 0.5 * PI * a0 * rhop p / SigmaGas p # ir.
Proof. intros H. unfold st0. now vnth. Qed.

Lemma Z0_at ir :
  (ir < N p)%nat -> Z0 p # ir = SigmaDust p # ir / SigmaGas p # ir.
Proof. intros H. unfold Z0. now vnth. Qed.

Lemma tgrowth_at ir :
  (ir < N p)%nat ->
  tgrowth p # ir
  = 1 / (Rpower (alpha p / 1e-4) 0.3333 * Z0 p # ir * OmegaK p # ir
         * Rpower (rgrid p # ir / au) (- 0.3333)).
Proof.
  intros H. pose proof length_Z0. pose proof length_OmegaK.
  unfold tgrowth. now vnth.
Qed.

Lemma stini_at it ir :
  (ir < N p)%nat ->
  stini p it # ir = st0 p # ir * exp (tgrid p # it / tgrowth p # ir).
Proof.
  intros H. pose proof length_st0. pose proof length_tgrowth.
  unfold stini. now vnth.
Qed.

Lemma drift_velocity_at strow ir :
  length strow = N p -> (ir < N p)%nat ->
  drift_velocity p strow # ir
  = 2 * Rabs (eta p # ir) * OmegaK p # ir * rgrid p # ir * strow # ir
    / (1 + strow # ir ^ 2).
Proof.
  intros Hl H. pose proof length_eta. pose proof length_OmegaK.
  unfold drift_velocity. now vnth.
Qed.

Lemma length_drift_velocity strow :
  length strow = N p -> length (drift_velocity p strow) = N p.
Proof.
  intros Hl. pose proof length_eta. pose proof length_OmegaK.
  unfold drift_velocity. len.
Qed.

Lemma growth_cap_at vv ir :
  length vv = N p -> (ir < N p)%nat ->
  growth_cap p vv # ir
  = Rmin (vv # ir) (rgrid p # ir / tgrowth p # ir / fff).
Proof.
  intros Hl H. pose proof length_tgrowth. unfold growth_cap. now vnth.
Qed.

Lemma length_growth_cap vv :
  length vv = N p -> length (growth_cap p vv) = N p.
Proof.
  intros Hl. pose proof length_tgrowth. unfold growth_cap. len.
Qed.

End Entries.

(** ** Signs of the static fields on well-formed input *)

Lemma k_b_pos : 0 < k_b.
Proof. unfold k_b; lra. Qed.

Lemma m_p_pos : 0 < m_p.
Proof. unfold m_p; lra. Qed.

Lemma Grav_pos : 0 < Grav.
Proof. unfold Grav; lra. Qed.

Lemma au_pos : 0 < au.
Proof. unfold au; lra. Qed.

Lemma a0_pos : 0 < a0.
Proof. unfold a0; lra. Qed.

Lemma fff_pos : 0 < fff.
Proof. unfold fff; lra. Qed.

Lemma Rpower_pos x y : 0 < Rpower x y.
Proof. unfold Rpower. apply exp_pos. Qed.

Lemma vsum_map_pos {A : Type} (f : A -> R) (l : list A) :
  l <> [] -> (forall x, In x l -> 0 < f x) -> 0 < vsum (map f l).
Proof.
  induction l as [|x l IH]; [congruence|]. intros _ Hf.
  destruct l as [|y l].
  - simpl. pose proof (Hf x (or_introl eq_refl)). lra.
  - assert (0 < vsum (map f (y :: l))).
    { apply IH; [discriminate|]. intros z Hz. apply Hf. now right. }
    pose proof (Hf x (or_introl eq_refl)).
    change (vsum (map f (x :: y :: l))) with (f x + vsum (map f (y :: l))).
    lra.
Qed.

Section Signs.
Variable p : pars.
Hypothesis Hv : valid p.

Let Hshape : shapes_ok p = true := valid_shapes p Hv.

Lemma r_pos ir : (ir < N p)%nat -> 0 < rgrid p # ir.
Proof. intros H. now apply (v_r_pos p Hv). Qed.

Lemma cs_pos ir : (ir < N p)%nat -> 0 < cs p # ir.
Proof.
  intros H. rewrite cs_at by assumption. apply sqrt_lt_R0.
  assert (0 < T p # ir) by (apply (v_T p Hv); rewrite (v_len_T p Hv); lia).
  pose proof k_b_pos. pose proof m_p_pos.
  apply Rdiv_lt_0_compat; nra.
Qed.

Lemma OmegaK_pos ir : (ir < N p)%nat -> 0 < OmegaK p # ir.
Proof.
  intros H. rewrite OmegaK_at by assumption. apply sqrt_lt_R0.
  pose proof (r_pos ir H). pose proof Grav_pos. pose proof (v_Mstar p Hv).
  apply Rdiv_lt_0_compat; [nra|]. apply pow_lt; assumption.
Qed.

Lemma gas_pos ir : (ir < N p)%nat -> 0 < SigmaGas p # ir.
Proof. intros H. apply (v_gas p Hv). rewrite (v_len_gas p Hv); lia. Qed.

Lemma dust_pos ir : (ir < N p)%nat -> 0 < SigmaDust p # ir.
Proof. intros H. apply (v_dust p Hv). rewrite (v_len_dust p Hv); lia. Qed.

Lemma sqrt_2PI_pos : 0 < sqrt (2 * PI).
Proof. apply sqrt_lt_R0. pose proof PI_RGT_0. lra. Qed.

Lemma rhog_pos ir : (ir < N p)%nat -> 0 < rhog p # ir.
Proof.
  intros H. rewrite rhog_at by assumption.
  pose proof (gas_pos ir H). pose proof (OmegaK_pos ir H).
  pose proof (cs_pos ir H). pose proof sqrt_2PI_pos.
  apply Rdiv_lt_0_compat; nra.
Qed.

Lemma pg_pos ir : (ir < N p)%nat -> 0 < pg p # ir.
Proof.
  intros H. rewrite pg_at by assumption.
  pose proof (rhog_pos ir H). pose proof (cs_pos ir H).
  apply Rmult_lt_0_compat; [assumption|]. apply pow_lt; assumption.
Qed.

Lemma dr_pos ir : (ir < N p)%nat -> 0 < dr p # ir.
Proof.
  intros H. rewrite dr_at by assumption.
  pose proof (v_N p Hv) as HN. pose proof (v_r_inc p Hv) as Hinc.
  unfold increasing in Hinc. fold (N p) in Hinc.
  destruct (Nat.eq_dec (S ir) (N p)) as [Hlast|Hnot].
  - rewrite Hlast, rInt_last by assumption.
    destruct ir as [|k]; [lia|].
    rewrite rInt_interior by lia.
    replace (N p - 1)%nat with (S k) by lia.
    replace (N p - 2)%nat with k by lia.
    pose proof (Hinc k ltac:(lia)). lra.
  - rewrite rInt_interior by lia.
    destruct ir as [|k].
    + rewrite rInt_first by assumption. pose proof (Hinc 0%nat ltac:(lia)).
      lra.
    + rewrite rInt_interior by lia.
      pose proof (Hinc k ltac:(lia)). pose proof (Hinc (S k) ltac:(lia)).
      lra.
Qed.

Lemma Z0_pos ir : (ir < N p)%nat -> 0 < Z0 p # ir.
Proof.
  intros H. rewrite Z0_at by assumption.
  apply Rdiv_lt_0_compat; [apply dust_pos | apply gas_pos]; assumption.
Qed.

Lemma st0_pos ir : (ir < N p)%nat -> 0 < st0 p # ir.
Proof.
  intros H. rewrite st0_at by assumption.
  pose proof PI_RGT_0. pose proof a0_pos. pose proof (v_rhop p Hv).
  apply Rdiv_lt_0_compat; [|apply gas_pos; assumption].
  assert (0 < 0.5 * PI) by lra.
  apply Rmult_lt_0_compat; [apply Rmult_lt_0_compat|]; assumption.
Qed.

Lemma stfrag_pos ir : (ir < N p)%nat -> 0 < stfrag p # ir.
Proof.
  intros H. rewrite stfrag_at by assumption.
  pose proof (cs_pos ir H). pose proof (v_alpha p Hv).
  pose proof (v_vfrag p Hv).
  assert (0 < vfrag p ^ 2) by (apply pow_lt; assumption).
  assert (0 < cs p # ir ^ 2) by (apply pow_lt; assumption).
  apply Rdiv_lt_0_compat; nra.
Qed.

Lemma tgrowth_denominator_pos ir :
  (ir < N p)%nat ->
  0 < Rpower (alpha p / 1e-4) 0.3333 * Z0 p # ir * OmegaK p # ir
      * Rpower (rgrid p # ir / au) (- 0.3333).
Proof.
  intros H.
  pose proof (Rpower_pos (alpha p / 1e-4) 0.3333).
  pose proof (Rpower_pos (rgrid p # ir / au) (- 0.3333)).
  pose proof (Z0_pos ir H). pose proof (OmegaK_pos ir H).
  repeat apply Rmult_lt_0_compat; assumption.
Qed.

Lemma tgrowth_pos ir : (ir < N p)%nat -> 0 < tgrowth p # ir.
Proof.
  intros H. rewrite tgrowth_at by assumption.
  apply Rdiv_lt_0_compat; [lra | apply tgrowth_denominator_pos; assumption].
Qed.

End Signs.

(** ** The evolving fields, entry by entry *)

Section FieldEntries.
Variable p : pars.
Hypothesis Hshape : shapes_ok p = true.

Let HM : (1 <= M p)%nat.
Proof. apply shapes_ok_iff in Hshape. apply Hshape. Qed.
Let HD : length (SigmaDust p) = N p.
Proof. apply shapes_ok_iff in Hshape. apply Hshape. Qed.

Lemma length_stdrift s it :
  length (row it (massout s)) = N p -> length (row 0 (massout s)) = N p ->
  length (stdrift p s it) = N p.
Proof.
  intros H1 H2. unfold stdrift. autorewrite with len.
  rewrite H1, H2, length_Z0, length_eta by assumption. lia.
Qed.

Lemma length_stini it : length (stini p it) = N p.
Proof.
  unfold stini. autorewrite with len.
  rewrite length_st0, length_tgrowth by assumption. lia.
Qed.

Lemma final_row_lengths it :
  (it < M p)%nat ->
  length (row it (st (final p))) = N p
  /\ length (row it (flux (final p))) = N p
  /\ length (row it (massout (final p))) = N p.
Proof.
  induction it as [|k IH]; intros Hit.
  - destruct (final_row0 p HM) as (E1 & E2 & E3).
    rewrite E1, E2, E3. autorewrite with len.
    rewrite length_drift_velocity, !length_st0, HD by
      (try assumption; apply length_st0; assumption).
    unfold N. repeat split; lia.
  - destruct IH as (L1 & L2 & L3); [lia|].
    destruct (final_row0 p HM) as (_ & E0 & _).
    destruct (final_rec p (S k)) as (E1 & E2 & E3); [lia|].
    replace (S k - 1)%nat with k in E1 by lia.
    assert (Lm : length (row (S k) (massout (final p))) = N p).
    { rewrite E1. autorewrite with len. rewrite L2, L3. lia. }
    assert (Lm0 : length (row 0 (massout (final p))) = N p).
    { rewrite E0. now autorewrite with len. }
    assert (Ls : length (row (S k) (st (final p))) = N p).
    { rewrite E2. autorewrite with len.
      rewrite length_stdrift, length_stini, length_stfrag, length_stdf,
        length_st0 by assumption. lia. }
    repeat split; try assumption.
    rewrite E3. autorewrite with len.
    rewrite length_growth_cap, Lm, Lm0, HD;
      try assumption; [unfold N; lia|].
    apply length_drift_velocity; assumption.
Qed.

Lemma st_row0_at ir : row 0 (st (final p)) # ir = st0 p # ir.
Proof. destruct (final_row0 p HM) as (E & _). now rewrite E. Qed.

Lemma massout_row0_at ir :
  (ir < N p)%nat -> row 0 (massout (final p)) # ir = massout0 p ir.
Proof.
  intros H. destruct (final_row0 p HM) as (_ & E & _). rewrite E.
  rewrite (nth_map_lt _ _ _ 0%nat) by (rewrite length_seq; lia).
  now rewrite seq_nth by lia.
Qed.

Lemma flux_row0_at ir :
  (ir < N p)%nat ->
  row 0 (flux (final p)) # ir
  = 2 * PI * rgrid p # ir * drift_velocity p (st0 p) # ir
    * SigmaDust p # ir.
Proof.
  intros H. destruct (final_row0 p HM) as (_ & _ & E). rewrite E.
  pose proof (length_drift_velocity p Hshape (st0 p)
                (length_st0 p Hshape)) as Lv.
  rewrite (nth_map2 _ _ _ _ 0 0), (nth_map2 _ _ _ _ 0 0),
    (nth_map_lt _ _ _ 0);
    autorewrite with len; rewrite ?Lv, ?HD; unfold N in *; try lia.
  reflexivity.
Qed.

Lemma massout_at it ir :
  (1 <= it < M p)%nat -> (ir < N p)%nat ->
  row it (massout (final p)) # ir
  = row (it - 1) (massout (final p)) # ir
    - row (it - 1) (flux (final p)) # ir
      * (tgrid p # it - tgrid p # (it - 1)).
Proof.
  intros Hit H. destruct (final_rec p it Hit) as (E & _). rewrite E.
  destruct (final_row_lengths (it - 1)) as (_ & L2 & L3); [lia|].
  rewrite (nth_map2 _ _ _ _ 0 0), (nth_map_lt _ _ _ 0);
    autorewrite with len; rewrite ?L2, ?L3; try lia.
  reflexivity.
Qed.

Lemma stdrift_at it ir :
  (it < M p)%nat -> (ir < N p)%nat ->
  stdrift p (final p) it ## ir
  = xdiv_by fff
      (xdiv (Z0 p # ir
             * (row it (massout (final p)) # ir
                / row 0 (massout (final p)) # ir))
            (Rabs (eta p # ir))).
Proof.
  intros Hit H.
  destruct (final_row_lengths it Hit) as (_ & _ & L).
  destruct (final_row_lengths 0) as (_ & _ & L0); [lia|].
  pose proof (length_Z0 p Hshape). pose proof (length_eta p Hshape).
  unfold stdrift.
  rewrite (nth_map_lt _ _ _ NaN), (nth_map2 _ _ _ _ 0 0),
    (nth_map2 _ _ _ _ 0 0), (nth_map2 _ _ _ _ 0 0), (nth_map_lt _ _ _ 0);
    autorewrite with len; try lia.
  reflexivity.
Qed.

Lemma st_at it ir :
  (1 <= it < M p)%nat -> (ir < N p)%nat ->
  row it (st (final p)) # ir = stored (chain p (final p) it ir).
Proof.
  intros Hit H. destruct (final_rec p it Hit) as (_ & E & _). rewrite E.
  destruct (final_row_lengths it) as (_ & _ & L); [lia|].
  destruct (final_row_lengths 0) as (_ & _ & L0); [lia|].
  pose proof (length_stdrift (final p) it L L0).
  pose proof (length_stini it). pose proof (length_stfrag p Hshape).
  pose proof (length_stdf p Hshape). pose proof (length_st0 p Hshape).
  unfold chain, ceiling.
  rewrite (nth_map_lt _ _ _ NaN), (nth_map2 _ _ _ _ NaN NaN),
    (nth_map2 _ _ _ _ NaN NaN), (nth_map2 _ _ _ _ NaN NaN),
    (nth_map2 _ _ _ _ NaN NaN), !(nth_map_lt _ _ _ 0);
    autorewrite with len; try lia.
  reflexivity.
Qed.

Lemma flux_at it ir :
  (1 <= it < M p)%nat -> (ir < N p)%nat ->
  row it (flux (final p)) # ir
  = 2 * PI * rgrid p # ir
    * growth_cap p (drift_velocity p (row it (st (final p)))) # ir
    * SigmaDust p # ir
    * (row it (massout (final p)) # ir / row 0 (massout (final p)) # ir).
Proof.
  intros Hit H. destruct (final_rec p it Hit) as (_ & _ & E). rewrite E.
  destruct (final_row_lengths it) as (Ls & _ & L); [lia|].
  destruct (final_row_lengths 0) as (_ & _ & L0); [lia|].
  pose proof (length_drift_velocity p Hshape _ Ls) as Lv.
  pose proof (length_growth_cap p Hshape _ Lv) as Lc.
  rewrite (nth_map2 _ _ _ _ 0 0), (nth_map2 _ _ _ _ 0 0),
    (nth_map2 _ _ _ _ 0 0), (nth_map2 _ _ _ _ 0 0), (nth_map_lt _ _ _ 0);
    autorewrite with len; rewrite ?Lc, ?L, ?L0, ?HD; unfold N in *; try lia.
  reflexivity.
Qed.

End FieldEntries.

(** ** The initial mass budget *)

Section InitialMass.
Variable p : pars.
Hypothesis Hshape : shapes_ok p = true.

Lemma massout0_as_sum ir : massout0 p ir = mass_outward_spec p ir.
Proof.
  pose proof (length_dr p Hshape) as Ld.
  assert (HD : length (SigmaDust p) = N p)
    by (apply shapes_ok_iff in Hshape; apply Hshape).
  unfold massout0, mass_outward_spec. f_equal.
  apply (nth_ext _ _ 0 0).
  - autorewrite with len. rewrite Ld, HD. unfold N. lia.
  - intros j Hj. autorewrite with len in Hj. rewrite Ld, HD in Hj.
    unfold N in *.
    rewrite (nth_map2 _ _ _ _ 0 0), (nth_map2 _ _ _ _ 0 0),
      (nth_map_lt _ _ _ 0), (nth_map_lt _ _ _ 0%nat);
      autorewrite with len; rewrite ?Ld, ?HD; unfold N; try lia.
    rewrite !nth_skipn, seq_nth by lia. reflexivity.
Qed.

End InitialMass.

Lemma massout0_pos p ir : valid p -> (ir < N p)%nat -> 0 < massout0 p ir.
Proof.
  intros Hv H. rewrite massout0_as_sum by (apply valid_shapes; assumption).
  unfold mass_outward_spec. apply vsum_map_pos.
  - intros E. apply (f_equal (@length nat)) in E.
    rewrite length_seq in E. simpl in E. lia.
  - intros j Hj. apply in_seq in Hj.
    pose proof (r_pos p Hv j ltac:(lia)).
    pose proof (dr_pos p Hv j ltac:(lia)).
    pose proof (dust_pos p Hv j ltac:(lia)).
    assert (0 < 2 * PI) by (pose proof PI_RGT_0; lra).
    apply Rmult_lt_0_compat; [apply Rmult_lt_0_compat;
      [apply Rmult_lt_0_compat|]|]; assumption.
Qed.

(** ** Signs and bounds of the evolving fields on well-formed input *)

Lemma div_le_of_le_mul (a b c : R) : 0 < c -> a <= b * c -> a / c <= b.
Proof.
  intros Hc H. apply (Rmult_le_reg_r c); [assumption|].
  unfold Rdiv. rewrite Rmult_assoc, Rinv_l by lra. lra.
Qed.

Lemma drift_law_le (A s : R) : 0 <= A -> 2 * A * s / (1 + s ^ 2) <= A.
Proof.
  intros HA. assert (0 < 1 + s ^ 2) by (pose proof (pow2_ge_0 s); lra).
  apply div_le_of_le_mul; [assumption|].
  assert (0 <= A * (s - 1) ^ 2)
    by (apply Rmult_le_pos; [assumption | apply pow2_ge_0]).
  replace (A * (1 + s ^ 2)) with (2 * A * s + A * (s - 1) ^ 2) by ring.
  lra.
Qed.

Lemma drift_law_nonneg (A s : R) :
  0 <= A -> 0 <= s -> 0 <= 2 * A * s / (1 + s ^ 2).
Proof.
  intros HA Hs. assert (0 < 1 + s ^ 2) by (pose proof (pow2_ge_0 s); lra).
  apply Rmult_le_pos; [|left; now apply Rinv_0_lt_compat].
  apply Rmult_le_pos; [lra | assumption].
Qed.

Lemma drift_law_pos (A s : R) :
  0 < A -> 0 < s -> 0 < 2 * A * s / (1 + s ^ 2).
Proof.
  intros HA Hs. assert (0 < 1 + s ^ 2) by (pose proof (pow2_ge_0 s); lra).
  apply Rdiv_lt_0_compat; [|assumption].
  apply Rmult_lt_0_compat; [lra | assumption].
Qed.

Section FieldSigns.
Variable p : pars.
Hypothesis Hv : valid p.

Let Hshape : shapes_ok p = true := valid_shapes p Hv.

Lemma headwind_nonneg ir :
  (ir < N p)%nat -> 0 <= Rabs (eta p # ir) * OmegaK p # ir * rgrid p # ir.
Proof.
  intros H. pose proof (Rabs_pos (eta p # ir)).
  pose proof (OmegaK_pos p Hv ir H). pose proof (r_pos p Hv ir H).
  apply Rmult_le_pos; [apply Rmult_le_pos|]; lra.
Qed.

Lemma drift_velocity_le strow ir :
  length strow = N p -> (ir < N p)%nat ->
  drift_velocity p strow # ir
  <= Rabs (eta p # ir) * OmegaK p # ir * rgrid p # ir.
Proof.
  intros Hl H. rewrite drift_velocity_at by assumption.
  pose proof (drift_law_le _ (strow # ir) (headwind_nonneg ir H)) as B.
  replace (2 * Rabs (eta p # ir) * OmegaK p # ir * rgrid p # ir * strow # ir)
    with (2 * (Rabs (eta p # ir) * OmegaK p # ir * rgrid p # ir) * strow # ir)
    by ring.
  exact B.
Qed.

Lemma drift_velocity_nonneg strow ir :
  length strow = N p -> (ir < N p)%nat -> 0 <= strow # ir ->
  0 <= drift_velocity p strow # ir.
Proof.
  intros Hl H Hs. rewrite drift_velocity_at by assumption.
  pose proof (drift_law_nonneg _ _ (headwind_nonneg ir H) Hs) as B.
  replace (2 * Rabs (eta p # ir) * OmegaK p # ir * rgrid p # ir * strow # ir)
    with (2 * (Rabs (eta p # ir) * OmegaK p # ir * rgrid p # ir) * strow # ir)
    by ring.
  exact B.
Qed.

Lemma drift_velocity_pos strow ir :
  length strow = N p -> (ir < N p)%nat -> 0 < strow # ir ->
  eta p # ir <> 0 -> 0 < drift_velocity p strow # ir.
Proof.
  intros Hl H Hs He. rewrite drift_velocity_at by assumption.
  assert (HA : 0 < Rabs (eta p # ir) * OmegaK p # ir * rgrid p # ir).
  { pose proof (Rabs_pos_lt _ He). pose proof (OmegaK_pos p Hv ir H).
    pose proof (r_pos p Hv ir H).
    apply Rmult_lt_0_compat; [apply Rmult_lt_0_compat|]; assumption. }
  pose proof (drift_law_pos _ _ HA Hs) as B.
  replace (2 * Rabs (eta p # ir) * OmegaK p # ir * rgrid p # ir * strow # ir)
    with (2 * (Rabs (eta p # ir) * OmegaK p # ir * rgrid p # ir) * strow # ir)
    by ring.
  exact B.
Qed.

Lemma cap_pos ir :
  (ir < N p)%nat -> 0 < rgrid p # ir / tgrowth p # ir / fff.
Proof.
  intros H. pose proof (r_pos p Hv ir H). pose proof (tgrowth_pos p Hv ir H).
  pose proof fff_pos.
  apply Rdiv_lt_0_compat; [apply Rdiv_lt_0_compat|]; assumption.
Qed.

Lemma growth_cap_le vv ir :
  length vv = N p -> (ir < N p)%nat -> growth_cap p vv # ir <= vv # ir.
Proof.
  intros Hl H. rewrite growth_cap_at by assumption. apply Rmin_l.
Qed.

Lemma growth_cap_nonneg vv ir :
  length vv = N p -> (ir < N p)%nat -> 0 <= vv # ir ->
  0 <= growth_cap p vv # ir.
Proof.
  intros Hl H Hvv. rewrite growth_cap_at by assumption.
  pose proof (cap_pos ir H). apply Rmin_glb; lra.
Qed.

Lemma growth_cap_pos vv ir :
  length vv = N p -> (ir < N p)%nat -> 0 < vv # ir ->
  0 < growth_cap p vv # ir.
Proof.
  intros Hl H Hvv. rewrite growth_cap_at by assumption.
  pose proof (cap_pos ir H). apply Rmin_glb_lt; lra.
Qed.

Lemma massout_row0_pos ir :
  (ir < N p)%nat -> 0 < row 0 (massout (final p)) # ir.
Proof.
  intros H. rewrite massout_row0_at by assumption.
  now apply massout0_pos.
Qed.

Lemma flux_zero_of_flat it ir :
  (it < M p)%nat -> (ir < N p)%nat -> eta p # ir = 0 ->
  row it (flux (final p)) # ir = 0.
Proof.
  intros Hit H He.
  destruct it as [|k].
  - rewrite flux_row0_at, drift_velocity_at
      by (try assumption; now apply length_st0).
    rewrite He, Rabs_R0. unfold Rdiv. ring.
  - destruct (final_row_lengths p Hshape (S k) Hit) as (Ls & _ & _).
    rewrite flux_at by (try assumption; lia).
    rewrite growth_cap_at, drift_velocity_at
      by (try assumption; now apply length_drift_velocity).
    rewrite He, Rabs_R0.
    replace (2 * 0 * OmegaK p # ir * rgrid p # ir
             * row (S k) (st (final p)) # ir
             / (1 + row (S k) (st (final p)) # ir ^ 2))
      with 0 by (unfold Rdiv; ring).
    pose proof (cap_pos ir H).
    rewrite Rmin_left by lra. unfold Rdiv. ring.
Qed.

Lemma massout_const_of_flat it ir :
  (it < M p)%nat -> (ir < N p)%nat -> eta p # ir = 0 ->
  row it (massout (final p)) # ir = row 0 (massout (final p)) # ir.
Proof.
  intros Hit H He. induction it as [|k IH]; [reflexivity|].
  rewrite massout_at by (try assumption; lia).
  replace (S k - 1)%nat with k by lia.
  rewrite IH by lia.
  rewrite (flux_zero_of_flat k ir ltac:(lia) H He). ring.
Qed.

(** *** The two quotients by |eta| and the clamp chain *)

Lemma xdiv_nonzero x y : y <> 0 -> xdiv x y = Fin (x / y).
Proof.
  intros Hy. unfold xdiv. destruct (Req_dec_T y 0); [contradiction|].
  reflexivity.
Qed.

Lemma xdiv_pos_zero x : 0 < x -> xdiv x 0 = PInf.
Proof.
  intros Hx. unfold xdiv. destruct (Req_dec_T 0 0); [|congruence].
  destruct (Rlt_dec 0 x); [reflexivity | contradiction].
Qed.

Lemma stdf_on_valid ir :
  (ir < N p)%nat ->
  (eta p # ir <> 0 ->
   stdf p ## ir
   = Fin (0.37 * vfrag p
          / (2 * Rabs (eta p # ir) * OmegaK p # ir * rgrid p # ir)))
  /\ (eta p # ir = 0 -> stdf p ## ir = PInf).
Proof.
  intros H. rewrite stdf_at by assumption.
  pose proof (OmegaK_pos p Hv ir H). pose proof (r_pos p Hv ir H).
  pose proof (v_vfrag p Hv).
  split.
  - intros He. apply xdiv_nonzero. pose proof (Rabs_pos_lt _ He).
    assert (0 < 2 * Rabs (eta p # ir) * OmegaK p # ir * rgrid p # ir)
      by (apply Rmult_lt_0_compat; [apply Rmult_lt_0_compat|]; lra).
    lra.
  - intros He. rewrite He, Rabs_R0.
    replace (2 * 0 * OmegaK p # ir * rgrid p # ir) with 0 by ring.
    apply xdiv_pos_zero. lra.
Qed.

Lemma stdrift_on_valid it ir :
  (it < M p)%nat -> (ir < N p)%nat ->
  (eta p # ir <> 0 ->
   stdrift p (final p) it ## ir
   = Fin (Z0 p # ir
          * (row it (massout (final p)) # ir
             / row 0 (massout (final p)) # ir)
          / Rabs (eta p # ir) / fff))
  /\ (eta p # ir = 0 -> stdrift p (final p) it ## ir = PInf).
Proof.
  intros Hit H. rewrite stdrift_at by assumption.
  split.
  - intros He. rewrite xdiv_nonzero by (now apply Rabs_no_R0).
    reflexivity.
  - intros He. rewrite (massout_const_of_flat it ir Hit H He).
    pose proof (massout_row0_pos ir H) as Hm.
    pose proof (Z0_pos p Hv ir H) as Hz.
    rewrite He, Rabs_R0. unfold Rdiv. rewrite Rinv_r by lra.
    rewrite xdiv_pos_zero by lra. reflexivity.
Qed.

(** On well-formed input the clamp chain is finite: the chain on the real
    quotients where eta is not zero, and max(min(stfrag, stini), st0) where
    it is, the two quotients being +inf there. *)
Lemma chain_on_valid it ir :
  (it < M p)%nat -> (ir < N p)%nat ->
  (eta p # ir <> 0 ->
   chain p (final p) it ir
   = Fin (Rmax
            (Rmin
               (Rmin
                  (Rmin (stfrag p # ir)
                        (0.37 * vfrag p
                         / (2 * Rabs (eta p # ir) * OmegaK p # ir
                            * rgrid p # ir)))
                  (stini p it # ir))
               (Z0 p # ir
                * (row it (massout (final p)) # ir
                   / row 0 (massout (final p)) # ir)
                / Rabs (eta p # ir) / fff))
            (st0 p # ir)))
  /\ (eta p # ir = 0 ->
      chain p (final p) it ir
      = Fin (Rmax (Rmin (stfrag p # ir) (stini p it # ir)) (st0 p # ir))).
Proof.
  intros Hit H.
  destruct (stdf_on_valid ir H) as (F1 & F0).
  destruct (stdrift_on_valid it ir Hit H) as (D1 & D0).
  unfold chain, ceiling. split; intros He.
  - rewrite (F1 He), (D1 He). reflexivity.
  - rewrite (F0 He), (D0 He). reflexivity.
Qed.

Lemma chain_finite it ir :
  (it < M p)%nat -> (ir < N p)%nat ->
  exists c, chain p (final p) it ir = Fin c /\ st0 p # ir <= c.
Proof.
  intros Hit H. destruct (chain_on_valid it ir Hit H) as (C1 & C0).
  destruct (Req_dec_T (eta p # ir) 0) as [He|He].
  - eexists. split; [exact (C0 He) | apply Rmax_r].
  - eexists. split; [exact (C1 He) | apply Rmax_r].
Qed.

Lemma st_ge_st0 it ir :
  (it < M p)%nat -> (ir < N p)%nat ->
  st0 p # ir <= row it (st (final p)) # ir.
Proof.
  intros Hit H. destruct it as [|k].
  - rewrite st_row0_at by assumption. lra.
  - rewrite st_at by (try assumption; lia).
    destruct (chain_finite (S k) ir Hit H) as (c & -> & Hc). exact Hc.
Qed.

Lemma st_final_pos it ir :
  (it < M p)%nat -> (ir < N p)%nat -> 0 < row it (st (final p)) # ir.
Proof.
  intros Hit H. pose proof (st_ge_st0 it ir Hit H).
  pose proof (st0_pos p Hv ir H). lra.
Qed.

Lemma st_is_chain it ir :
  (1 <= it < M p)%nat -> (ir < N p)%nat ->
  Fin (row it (st (final p)) # ir) = chain p (final p) it ir.
Proof.
  intros Hit H. rewrite st_at by assumption.
  destruct (chain_finite it ir ltac:(lia) H) as (c & -> & _). reflexivity.
Qed.

Lemma st_value it ir :
  (1 <= it < M p)%nat -> (ir < N p)%nat ->
  (eta p # ir <> 0 ->
   row it (st (final p)) # ir
   = Rmax
       (Rmin
          (Rmin
             (Rmin (stfrag p # ir)
                   (0.37 * vfrag p
                    / (2 * Rabs (eta p # ir) * OmegaK p # ir
                       * rgrid p # ir)))
             (stini p it # ir))
          (Z0 p # ir
           * (row it (massout (final p)) # ir
              / row 0 (massout (final p)) # ir)
           / Rabs (eta p # ir) / fff))
       (st0 p # ir))
  /\ (eta p # ir = 0 ->
      row it (st (final p)) # ir
      = Rmax (Rmin (stfrag p # ir) (stini p it # ir)) (st0 p # ir)).
Proof.
  intros Hit H. rewrite st_at by assumption.
  destruct (chain_on_valid it ir ltac:(lia) H) as (C1 & C0).
  split; intros He; [rewrite (C1 He) | rewrite (C0 He)]; reflexivity.
Qed.

Lemma st_le_ceiling it ir :
  (1 <= it < M p)%nat -> (ir < N p)%nat ->
  exists c, ceiling p it ir = Fin c
            /\ row it (st (final p)) # ir <= Rmax c (st0 p # ir).
Proof.
  intros Hit H. destruct (st_value it ir Hit H) as (V1 & V0).
  destruct (stdf_on_valid ir H) as (F1 & F0).
  unfold ceiling.
  destruct (Req_dec_T (eta p # ir) 0) as [He|He].
  - rewrite (F0 He), (V0 He). eexists. split; [reflexivity|]. lra.
  - rewrite (F1 He), (V1 He). eexists. split; [reflexivity|].
    apply Rmax_lub; [|apply Rmax_r].
    eapply Rle_trans; [apply Rmin_l | apply Rmax_l].
Qed.

Lemma flux_as_rate it ir :
  (1 <= it < M p)%nat -> (ir < N p)%nat ->
  row it (flux (final p)) # ir
  = rate p it ir
    * (row it (massout (final p)) # ir / row 0 (massout (final p)) # ir).
Proof. intros Hit H. unfold rate. now apply flux_at. Qed.

Lemma rate_nonneg it ir :
  (it < M p)%nat -> (ir < N p)%nat -> 0 <= rate p it ir.
Proof.
  intros Hit H. unfold rate.
  destruct (final_row_lengths p Hshape it Hit) as (Ls & _ & _).
  pose proof (length_drift_velocity p Hshape _ Ls) as Lv.
  pose proof (st_final_pos it ir Hit H).
  assert (0 <= growth_cap p (drift_velocity p (row it (st (final p)))) # ir).
  { apply growth_cap_nonneg; try assumption.
    apply drift_velocity_nonneg; try assumption. lra. }
  pose proof (r_pos p Hv ir H). pose proof (dust_pos p Hv ir H).
  assert (0 < 2 * PI) by (pose proof PI_RGT_0; lra).
  apply Rmult_le_pos; [apply Rmult_le_pos; [apply Rmult_le_pos|]|]; lra.
Qed.

Lemma rate_pos it ir :
  (it < M p)%nat -> (ir < N p)%nat -> eta p # ir <> 0 -> 0 < rate p it ir.
Proof.
  intros Hit H He. unfold rate.
  destruct (final_row_lengths p Hshape it Hit) as (Ls & _ & _).
  pose proof (length_drift_velocity p Hshape _ Ls) as Lv.
  pose proof (st_final_pos it ir Hit H).
  assert (0 < growth_cap p (drift_velocity p (row it (st (final p)))) # ir).
  { apply growth_cap_pos; try assumption.
    apply drift_velocity_pos; assumption. }
  pose proof (r_pos p Hv ir H). pose proof (dust_pos p Hv ir H).
  assert (0 < 2 * PI) by (pose proof PI_RGT_0; lra).
  apply Rmult_lt_0_compat; [apply Rmult_lt_0_compat;
    [apply Rmult_lt_0_compat|]|]; assumption.
Qed.

Lemma flux_row0_nonneg ir :
  (ir < N p)%nat -> 0 <= row 0 (flux (final p)) # ir.
Proof.
  intros H. rewrite flux_row0_at by assumption.
  pose proof (length_st0 p Hshape) as L0.
  assert (0 <= drift_velocity p (st0 p) # ir).
  { apply drift_velocity_nonneg; try assumption.
    pose proof (st0_pos p Hv ir H). lra. }
  pose proof (r_pos p Hv ir H). pose proof (dust_pos p Hv ir H).
  assert (0 < 2 * PI) by (pose proof PI_RGT_0; lra).
  apply Rmult_le_pos; [apply Rmult_le_pos; [apply Rmult_le_pos|]|]; lra.
Qed.

Lemma flux_nonneg_of_mass it ir :
  (it < M p)%nat -> (ir < N p)%nat ->
  0 <= row it (massout (final p)) # ir ->
  0 <= row it (flux (final p)) # ir.
Proof.
  intros Hit H Hm. destruct it as [|k].
  - now apply flux_row0_nonneg.
  - rewrite flux_as_rate by (try assumption; lia).
    pose proof (rate_nonneg (S k) ir Hit H).
    pose proof (massout_row0_pos ir H).
    apply Rmult_le_pos; [assumption|].
    apply Rmult_le_pos; [assumption|]. left.
    now apply Rinv_0_lt_compat.
Qed.

Lemma flux_neg_of_mass it ir :
  (1 <= it < M p)%nat -> (ir < N p)%nat -> eta p # ir <> 0 ->
  row it (massout (final p)) # ir < 0 ->
  row it (flux (final p)) # ir < 0.
Proof.
  intros Hit H He Hm. rewrite flux_as_rate by assumption.
  pose proof (rate_pos it ir ltac:(lia) H He).
  pose proof (massout_row0_pos ir H) as Hm0.
  assert (row it (massout (final p)) # ir / row 0 (massout (final p)) # ir < 0).
  { unfold Rdiv. pose proof (Rinv_0_lt_compat _ Hm0). nra. }
  nra.
Qed.

End FieldSigns.

(** ** What the function returns *)

(** *** The operations on arrays of one length *)

Section NpOps.
Context {A B C : Type}.

Lemma bcast2_same (f : A -> B -> C) a b :
  length a = length b -> bcast2 f a b = Some (map2 f a b).
Proof.
  intros E. unfold bcast2. now rewrite E, Nat.eqb_refl.
Qed.

Lemma index_nth (a : list A) i d :
  (i < length a)%nat -> index a i = Some (nth i a d).
Proof. intros H. unfold index. now apply nth_error_nth'. Qed.

Lemma index_end_nth (a : list A) k d :
  (1 <= k <= length a)%nat ->
  index_end a k = Some (nth (length a - k) a d).
Proof.
  intros H. unfold index_end.
  destruct (Nat.leb_spec k (length a)); [|lia].
  apply nth_error_nth'. lia.
Qed.

Lemma assign_row_same n (v : list A) :
  length v = n -> assign_row n v = Some v.
Proof. intros E. unfold assign_row. now rewrite E, Nat.eqb_refl. Qed.

Lemma store_row_lt it (v : A) a :
  (it < length a)%nat -> store_row it v a = Some (upd it v a).
Proof.
  intros H. unfold store_row.
  destruct (Nat.ltb_spec it (length a)); [reflexivity | lia].
Qed.

Lemma mapM_map (f : A -> option B) (g : A -> B) l :
  (forall x, In x l -> f x = Some (g x)) -> mapM f l = Some (map g l).
Proof.
  induction l as [|x l IH]; intros H; [reflexivity|].
  cbn [mapM map]. rewrite (H x (or_introl eq_refl)). cbn [bind].
  rewrite IH by (intros y Hy; apply H; now right). reflexivity.
Qed.

Lemma Forall_upd (P : A -> Prop) i v l :
  Forall P l -> P v -> Forall P (upd i v l).
Proof.
  intros Hl Hv. revert i; induction Hl as [|x l Hx Hl IH]; intros [|i];
    simpl; auto.
Qed.

End NpOps.

Lemma index_row (a : matrix) i :
  (i < length a)%nat -> index a i = Some (row i a).
Proof. intros H. now apply index_nth. Qed.

(** *** The function on arrays of one length *)

Section Bridge.
Variable p : pars.
Hypothesis Hshape : shapes_ok p = true.

Let HN : (2 <= N p)%nat.
Proof. apply shapes_ok_iff in Hshape. apply Hshape. Qed.
Let HM : (1 <= M p)%nat.
Proof. apply shapes_ok_iff in Hshape. apply Hshape. Qed.
Let HG : length (SigmaGas p) = N p.
Proof. apply shapes_ok_iff in Hshape. apply Hshape. Qed.
Let HD : length (SigmaDust p) = N p.
Proof. apply shapes_ok_iff in Hshape. apply Hshape. Qed.
Let HT : length (T p) = N p.
Proof. apply shapes_ok_iff in Hshape. apply Hshape. Qed.
Let Lcs := length_cs p Hshape.
Let LOm := length_OmegaK p Hshape.
Let Lrhog := length_rhog p Hshape.
Let Lpg := length_pg p Hshape.
Let Ldr := length_dr p Hshape.
Let LpgInt := length_pgInt p Hshape.
Let Leta := length_eta p Hshape.
Let Lst0 := length_st0 p Hshape.
Let Lstfrag := length_stfrag p Hshape.
Let Lstdf := length_stdf p Hshape.
Let LZ0 := length_Z0 p Hshape.
Let Ltg := length_tgrowth p Hshape.

Ltac lens :=
  autorewrite with len;
  rewrite ?Lcs, ?LOm, ?Lrhog, ?Lpg, ?Ldr, ?LpgInt, ?Leta, ?Lst0, ?Lstfrag,
    ?Lstdf, ?LZ0, ?Ltg, ?HG, ?HD, ?HT;
  unfold N in *; lia.

Ltac same := rewrite bcast2_same by lens; cbn [bind].

Lemma rhog_np_ok : rhog_np p = Some (rhog p).
Proof. unfold rhog_np. do 2 same. reflexivity. Qed.

Lemma pg_np_ok : pg_np p (rhog p) = Some (pg p).
Proof. unfold pg_np. same. reflexivity. Qed.

Lemma rInt_np_ok : rInt_np p = Some (rInt p).
Proof.
  unfold rInt_np, rInt.
  rewrite (index_nth _ 0 0), (index_nth _ 1 0) by (unfold N in *; lia).
  cbn [bind].
  rewrite (index_end_nth _ 1 0), (index_end_nth _ 2 0)
    by (unfold N in *; lia).
  cbn [bind]. now rewrite last_as_nth.
Qed.

Lemma pgInt_np_ok : interp_np (rInt p) (rgrid p) (pg p) = Some (pgInt p).
Proof.
  unfold interp_np. rewrite Lpg. fold (N p). rewrite Nat.eqb_refl.
  destruct (Nat.leb_spec 1 (N p)); [reflexivity | lia].
Qed.

Lemma eta_np_ok : eta_np p (pgInt p) (dr p) (rhog p) = Some (eta p).
Proof. unfold eta_np. do 4 same. reflexivity. Qed.

Lemma stdf_np_ok : stdf_np p (eta p) = Some (stdf p).
Proof. unfold stdf_np. do 2 same. reflexivity. Qed.

Lemma Z0_np_ok : Z0_np p = Some (Z0 p).
Proof. unfold Z0_np. same. reflexivity. Qed.

Lemma tgrowth_np_ok : tgrowth_np p (Z0 p) = Some (tgrowth p).
Proof. unfold tgrowth_np. do 2 same. reflexivity. Qed.

Lemma statics_np_ok : statics_np p = Some (the_statics p).
Proof.
  unfold statics_np.
  rewrite rhog_np_ok; cbn [bind]. rewrite pg_np_ok; cbn [bind].
  rewrite rInt_np_ok; cbn [bind]. fold (dr p).
  rewrite pgInt_np_ok; cbn [bind]. rewrite eta_np_ok; cbn [bind].
  rewrite stdf_np_ok; cbn [bind]. rewrite Z0_np_ok; cbn [bind].
  rewrite tgrowth_np_ok; cbn [bind]. reflexivity.
Qed.

Lemma massout0_np_ok ir :
  massout0_np p (the_statics p) ir = Some (massout0 p ir).
Proof.
  unfold massout0_np, the_statics; cbn [s_dr]. do 2 same. reflexivity.
Qed.

Lemma drift_velocity_np_ok strow :
  length strow = N p ->
  drift_velocity_np p (the_statics p) strow = Some (drift_velocity p strow).
Proof.
  intros L. unfold drift_velocity_np, the_statics; cbn [s_eta].
  do 4 same. reflexivity.
Qed.

Lemma growth_cap_np_ok vv :
  length vv = N p ->
  growth_cap_np p (the_statics p) vv = Some (growth_cap p vv).
Proof.
  intros L. unfold growth_cap_np, the_statics; cbn [s_tgrowth].
  do 2 same. reflexivity.
Qed.

Lemma row_length (a : matrix) i :
  Forall (fun r => length r = N p) a -> (i < length a)%nat ->
  length (row i a) = N p.
Proof.
  intros F H. rewrite Forall_forall in F. apply F. now apply nth_In.
Qed.

Lemma zeros_shaped :
  length (zeros (M p) (N p)) = M p
  /\ Forall (fun r => length r = N p) (zeros (M p) (N p)).
Proof.
  unfold zeros. rewrite repeat_length. split; [reflexivity|].
  apply Forall_forall. intros r Hr. apply repeat_spec in Hr. subst r.
  apply repeat_length.
Qed.

Lemma initial_np_ok :
  initial_np p (the_statics p) (tgrid p) = Some (initial p) /\ shaped p (initial p).
Proof.
  destruct zeros_shaped as (Zl & Zf).
  assert (Lm : length (map (massout0 p) (seq 0 (N p))) = N p) by lens.
  assert (Lv : length (drift_velocity p (st0 p)) = N p)
    by (now apply length_drift_velocity).
  assert (Lf : length (2 * PI *: rgrid p .* drift_velocity p (st0 p)
                       .* SigmaDust p) = N p) by lens.
  split.
  - unfold initial_np. fold (M p).
    rewrite (mapM_map _ (massout0 p))
      by (intros x _; apply massout0_np_ok).
    cbn [bind]. rewrite store_row_lt by (rewrite Zl; lia). cbn [bind].
    rewrite assign_row_same by exact Lst0. cbn [bind].
    rewrite store_row_lt by (rewrite Zl; lia). cbn [bind].
    rewrite index_row by (rewrite length_upd, Zl; lia). cbn [bind].
    rewrite row_upd_same by (rewrite Zl; lia).
    rewrite drift_velocity_np_ok by exact Lst0. cbn [bind].
    do 2 same.
    rewrite assign_row_same by exact Lf. cbn [bind].
    rewrite store_row_lt by (rewrite Zl; lia). cbn [bind].
    unfold initial. rewrite row_upd_same by (rewrite Zl; lia).
    reflexivity.
  - unfold shaped, initial; cbn [st flux massout].
    rewrite !length_upd, Zl.
    rewrite row_upd_same by (rewrite Zl; lia).
    repeat split; try apply Forall_upd; auto.
Qed.

Lemma step_np_ok s it :
  shaped p s -> (1 <= it < M p)%nat ->
  step_np p (the_statics p) (tgrid p) s it = Some (step p s it)
  /\ shaped p (step p s it).
Proof.
  intros ((Ls & Fs) & (Lf & Ff) & (Lm & Fm)) Hit.
  assert (Rm : length (row (it - 1) (massout s)) = N p)
    by (apply row_length; [assumption | lia]).
  assert (Rf : length (row (it - 1) (flux s)) = N p)
    by (apply row_length; [assumption | lia]).
  assert (R0 : length (row 0 (massout s)) = N p)
    by (apply row_length; [assumption | lia]).
  set (t := tgrid p # it). set (tp := tgrid p # (it - 1)).
  set (m := row (it - 1) (massout s)
            .- map (fun f => f * (t - tp)) (row (it - 1) (flux s))).
  assert (Lm1 : length m = N p) by (unfold m; lens).
  set (mo := upd it m (massout s)).
  assert (Emit : row it mo = m)
    by (unfold mo; apply row_upd_same; lia).
  assert (Em0 : row 0 mo = row 0 (massout s))
    by (unfold mo; apply row_upd_other; lia).
  set (stini := st0 p .* map exp (t :/ tgrowth p)).
  set (sd := map (xdiv_by fff)
               (map2 xdiv (Z0 p .* (m ./ row 0 (massout s)))
                          (map Rabs (eta p)))).
  set (c1 := map2 xmin (map2 xmin (map Fin (stfrag p)) (stdf p))
                  (map Fin stini)).
  set (c2 := map2 xmin c1 sd). set (c3 := map2 xmax c2 (map Fin (st0 p))).
  assert (L1 : length c1 = N p) by (unfold c1, stini; lens).
  assert (L2 : length c2 = N p) by (unfold c2, sd; rewrite length_map2, L1; lens).
  assert (L3 : length c3 = N p) by (unfold c3; rewrite length_map2, L2; lens).
  set (sto := upd it (map stored c3) (st s)).
  assert (Esrow : row it sto = map stored c3)
    by (unfold sto; apply row_upd_same; lia).
  assert (Lsrow : length (map stored c3) = N p)
    by (rewrite length_map; exact L3).
  assert (Lvv : length (drift_velocity p (map stored c3)) = N p)
    by (now apply length_drift_velocity).
  assert (Lcap : length (growth_cap p (drift_velocity p (map stored c3)))
                 = N p) by (now apply length_growth_cap).
  set (fr := 2 * PI *: rgrid p
             .* growth_cap p (drift_velocity p (map stored c3))
             .* SigmaDust p .* (m ./ row 0 (massout s))).
  assert (Lfr : length fr = N p) by (unfold fr; lens).
  assert (Estep : step p s it = State sto (upd it fr (flux s)) mo).
  { unfold step. fold t tp m mo. rewrite Emit, Em0.
    fold stini sd c1 c2 c3 sto. rewrite Esrow. reflexivity. }
  split.
  - unfold step_np, the_statics; cbn [s_Z0 s_tgrowth s_eta s_stdf].
    rewrite !index_row by lia. cbn [bind].
    unfold index. rewrite !(nth_error_nth' (tgrid p) 0)
      by (fold (M p); lia).
    cbn [bind]. fold t tp.
    rewrite bcast2_same by lens. cbn [bind]. fold m.
    rewrite assign_row_same by exact Lm1. cbn [bind].
    rewrite store_row_lt by lia. cbn [bind]. fold mo.
    fold (index mo it) (index mo 0).
    rewrite !index_row by (unfold mo; rewrite length_upd; lia).
    cbn [bind]. rewrite Emit, Em0.
    rewrite bcast2_same by lens. cbn [bind].
    rewrite bcast2_same by lens. cbn [bind].
    rewrite bcast2_same by lens. cbn [bind]. fold stini.
    rewrite bcast2_same by lens. cbn [bind]. fold sd.
    rewrite bcast2_same by lens. cbn [bind].
    rewrite bcast2_same by (unfold stini; lens). cbn [bind]. fold c1.
    rewrite assign_row_same by exact L1. cbn [bind].
    rewrite bcast2_same by (unfold sd; rewrite L1; lens). cbn [bind].
    fold c2.
    rewrite assign_row_same by exact L2. cbn [bind].
    rewrite bcast2_same by (rewrite L2; lens). cbn [bind]. fold c3.
    rewrite assign_row_same by exact L3. cbn [bind].
    rewrite store_row_lt by lia. cbn [bind]. fold sto.
    fold (index sto it).
    rewrite index_row by (unfold sto; rewrite length_upd; lia).
    cbn [bind]. rewrite Esrow.
    rewrite drift_velocity_np_ok by exact Lsrow. cbn [bind].
    rewrite growth_cap_np_ok by exact Lvv. cbn [bind].
    rewrite bcast2_same by (rewrite Lcap; lens). cbn [bind].
    rewrite bcast2_same by (rewrite length_map2, Lcap; lens). cbn [bind].
    rewrite bcast2_same by lens. cbn [bind].
    fold fr.
    rewrite assign_row_same by exact Lfr. cbn [bind].
    rewrite store_row_lt by lia. cbn [bind].
    now rewrite Estep.
  - rewrite Estep. unfold shaped; cbn [st flux massout].
    unfold sto, mo. rewrite !length_upd.
    repeat split; try apply Forall_upd; auto.
Qed.

Lemma run_np_ok k :
  (k < M p)%nat ->
  foldM (step_np p (the_statics p) (tgrid p)) (seq 1 k) (initial p)
  = Some (run p k)
  /\ shaped p (run p k).
Proof.
  induction k as [|k IH]; intros Hk.
  - split; [reflexivity | apply initial_np_ok].
  - destruct IH as (E & W); [lia|].
    destruct (step_np_ok (run p k) (S k) W ltac:(lia)) as (Es & Ws).
    rewrite run_S. split; [|exact Ws].
    rewrite seq_S.
    assert (foldM_app : forall l1 l2 a,
              foldM (step_np p (the_statics p) (tgrid p)) (l1 ++ l2) a
              = bind (foldM (step_np p (the_statics p) (tgrid p)) l1 a)
                     (foldM (step_np p (the_statics p) (tgrid p)) l2)).
    { induction l1 as [|x l1 IHl]; intros l2 a; [reflexivity|].
      cbn [app foldM].
      destruct (step_np p (the_statics p) (tgrid p) a x); cbn [bind];
        [apply IHl | reflexivity]. }
    rewrite foldM_app, E. cbn [bind foldM Nat.add]. rewrite Es.
    reflexivity.
Qed.

End Bridge.

(** On arrays of one length the function returns the fields of the
    model. *)
Lemma pebble_predictor_returns p :
  shapes_ok p = true ->
  pebble_predictor p = Some (st (final p), flux (final p)).
Proof.
  intros H. unfold pebble_predictor, evolve_np.
  rewrite (statics_np_ok p H). cbn [bind].
  rewrite (proj1 (initial_np_ok p H)). cbn [bind].
  assert (HM : (1 <= M p)%nat) by (apply shapes_ok_iff in H; apply H).
  fold (M p).
  rewrite (proj1 (run_np_ok p H (M p - 1) ltac:(lia))). cbn [bind].
  reflexivity.
Qed.

Lemma pebble_predictor_inv p St Fl :
  valid p -> pebble_predictor p = Some (St, Fl) ->
  shapes_ok p = true /\ St = st (final p) /\ Fl = flux (final p).
Proof.
  intros Hv E. pose proof (valid_shapes p Hv) as H.
  rewrite (pebble_predictor_returns p H) in E.
  injection E as <- <-. auto.
Qed.

(** *** Which rows a pass of the function reads and writes *)

Section NpRows.
Context {A : Type}.

Lemma index_upd_same i (v : A) a :
  (i < length a)%nat -> index (upd i v a) i = Some v.
Proof.
  revert i; induction a as [|x a IH]; intros [|i] H; simpl in *;
    try lia; [reflexivity | apply IH; lia].
Qed.

Lemma index_upd_other i j (v : A) a :
  i <> j -> index (upd i v a) j = index a j.
Proof.
  revert i j; induction a as [|x a IH]; intros [|i] [|j] H; simpl;
    try reflexivity; try congruence.
  apply IH. congruence.
Qed.

Lemma store_row_inv it (v : A) a a' :
  store_row it v a = Some a' -> (it < length a)%nat /\ a' = upd it v a.
Proof.
  unfold store_row. destruct (Nat.ltb_spec it (length a)); [|discriminate].
  intros E; injection E as <-. auto.
Qed.

Lemma index_eq_nth (a b : list A) i d :
  index a i = index b i -> nth i a d = nth i b d.
Proof.
  unfold index. intros E.
  rewrite <- !nth_default_eq. unfold nth_default. now rewrite E.
Qed.

End NpRows.

Lemma Some_eq {A : Type} (a b : A) : Some a = Some b -> a = b.
Proof. congruence. Qed.

Lemma foldM_app {A B : Type} (f : A -> B -> option A) l1 l2 a :
  foldM f (l1 ++ l2) a = bind (foldM f l1 a) (foldM f l2).
Proof.
  revert a; induction l1 as [|x l1 IH]; intros a; [reflexivity|].
  cbn [app foldM]. destruct (f a x); cbn [bind]; [apply IH | reflexivity].
Qed.

Ltac next_op :=
  match goal with
  | |- bind (store_row ?it ?v ?a) _ = Some _ -> _ =>
      let E := fresh "E" in
      let L := fresh "L" in
      destruct (store_row it v a) eqn:E; cbn [bind];
      [|intros; discriminate];
      apply store_row_inv in E; destruct E as (L & ->)
  | |- bind ?e _ = Some _ -> _ =>
      let E := fresh "E" in
      destruct e eqn:E; cbn [bind]; [|intros; discriminate]
  end.

(* two runs side by side *)
Ltac next_op2 :=
  match goal with
  | |- bind ?e _ = Some _ -> bind ?e _ = Some _ -> _ =>
      let E := fresh "E" in
      destruct e eqn:E; cbn [bind]; [|intros; discriminate]
  | |- bind (store_row ?it ?v ?a) _ = Some _ ->
       bind (store_row ?it ?v ?b) _ = Some _ -> _ =>
      let E := fresh "E" in
      let E' := fresh "E" in
      let L := fresh "L" in
      let L' := fresh "L" in
      destruct (store_row it v a) eqn:E; cbn [bind];
      [|intros; discriminate];
      destruct (store_row it v b) eqn:E'; cbn [bind];
      [|intros; discriminate];
      apply store_row_inv in E; destruct E as (L & ->);
      apply store_row_inv in E'; destruct E' as (L' & ->);
      rewrite ?index_upd_same by assumption; cbn [bind]
  end.

Section Causality.
Variable p : pars.
Variable sf : statics.

(** A pass writes row [it] of the three arrays and nothing else. *)
Lemma step_np_writes ts s it s' :
  step_np p sf ts s it = Some s' ->
  exists srow frow mrow,
    s' = State (upd it srow (st s)) (upd it frow (flux s))
               (upd it mrow (massout s))
    /\ (it < length (st s))%nat /\ (it < length (flux s))%nat
    /\ (it < length (massout s))%nat.
Proof.
  unfold step_np. repeat next_op.
  intros H; injection H as <-. eauto 10.
Qed.

(** What a pass writes is determined by the two times it reads and by
    rows [it - 1] and [0] of the mass and flux arrays. *)
Lemma step_np_reads ts ts' s s' it x x' :
  (1 <= it)%nat ->
  index ts' it = index ts it ->
  index ts' (it - 1) = index ts (it - 1) ->
  index (massout s') (it - 1) = index (massout s) (it - 1) ->
  index (flux s') (it - 1) = index (flux s) (it - 1) ->
  index (massout s') 0 = index (massout s) 0 ->
  step_np p sf ts s it = Some x -> step_np p sf ts' s' it = Some x' ->
  index (st x') it = index (st x) it
  /\ index (flux x') it = index (flux x) it
  /\ index (massout x') it = index (massout x) it.
Proof.
  intros Hit Et Etp Em Ef E0. unfold step_np. rewrite Et, Etp, Em, Ef.
  repeat next_op2.
  rewrite !(index_upd_other it 0) by lia. rewrite E0.
  repeat next_op2.
  intros H H'; injection H as <-; injection H' as <-.
  cbn [st flux massout]. rewrite !index_upd_same by assumption. auto.
Qed.

(** The initial condition reads no time. *)
Lemma initial_np_rows ts ts' s0 s0' :
  initial_np p sf ts = Some s0 -> initial_np p sf ts' = Some s0' ->
  same_rows 0 s0 s0'.
Proof.
  unfold initial_np. repeat next_op2.
  intros H H'. apply Some_eq in H, H'. subst s0 s0'.
  unfold same_rows. intros j Hj. replace j with 0%nat by lia.
  cbn [st flux massout]. rewrite !index_upd_same by assumption. auto.
Qed.

Lemma run_np_S ts k s0 s :
  foldM (step_np p sf ts) (seq 1 (S k)) s0 = Some s ->
  exists s1, foldM (step_np p sf ts) (seq 1 k) s0 = Some s1
             /\ step_np p sf ts s1 (S k) = Some s.
Proof.
  rewrite seq_S, foldM_app.
  destruct (foldM (step_np p sf ts) (seq 1 k) s0) as [s1|];
    cbn [bind foldM Nat.add]; [|discriminate].
  destruct (step_np p sf ts s1 (S k)) as [s2|] eqn:E;
    cbn [bind]; [|discriminate].
  intros H; injection H as <-. eauto.
Qed.

(** The rows up to [k] are those the first [k] passes left. *)
Lemma run_np_prefix ts s0 k' k s' :
  foldM (step_np p sf ts) (seq 1 k') s0 = Some s' -> (k <= k')%nat ->
  exists s, foldM (step_np p sf ts) (seq 1 k) s0 = Some s
            /\ same_rows k s s'.
Proof.
  revert s'. induction k' as [|k' IH]; intros s' H Hk.
  - assert (k = 0%nat) as -> by lia. exists s'. split; [exact H|].
    intros j _. auto.
  - destruct (Nat.eq_dec k (S k')) as [->|Hne].
    + exists s'. split; [exact H|]. intros j _. auto.
    + apply run_np_S in H. destruct H as (s1 & H1 & H2).
      destruct (IH s1 H1 ltac:(lia)) as (s & Hs & Hrows).
      exists s. split; [exact Hs|].
      apply step_np_writes in H2.
      destruct H2 as (a & b & c & -> & _).
      intros j Hj. cbn [st flux massout].
      rewrite !(index_upd_other (S k') j) by lia. now apply Hrows.
Qed.

(** Two runs whose time grids agree up to [k] agree on the rows up to
    [k]. *)
Lemma run_np_causal ts ts' s0 s0' :
  initial_np p sf ts = Some s0 -> initial_np p sf ts' = Some s0' ->
  forall k s s',
    (forall j, (j <= k)%nat -> index ts' j = index ts j) ->
    foldM (step_np p sf ts) (seq 1 k) s0 = Some s ->
    foldM (step_np p sf ts') (seq 1 k) s0' = Some s' ->
    same_rows k s s'.
Proof.
  intros I I'. induction k as [|k IH]; intros s s' Hts H H'.
  - cbn [seq foldM] in H, H'. injection H as <-; injection H' as <-.
    exact (initial_np_rows _ _ _ _ I I').
  - apply run_np_S in H, H'.
    destruct H as (s1 & H1 & H2), H' as (s1' & H1' & H2').
    pose proof (IH s1 s1' ltac:(intros j Hj; apply Hts; lia) H1 H1')
      as Hrows.
    destruct (Hrows k (le_n k)) as (_ & Rf & Rm).
    destruct (Hrows 0%nat ltac:(lia)) as (_ & _ & R0).
    assert (Ek : (S k - 1 = k)%nat) by lia.
    pose proof (step_np_reads ts ts' s1 s1' (S k) s s' ltac:(lia)
                  (Hts _ (le_n _))) as R.
    rewrite Ek in R.
    specialize (R (Hts k ltac:(lia)) Rm Rf R0 H2 H2').
    apply step_np_writes in H2, H2'.
    destruct H2 as (a & b & c & Es & _), H2' as (a' & b' & c' & Es' & _).
    intros j Hj. destruct (Nat.eq_dec j (S k)) as [->|Hne]; [exact R|].
    rewrite Es, Es'. cbn [st flux massout].
    rewrite !(index_upd_other (S k) j) by lia. apply Hrows. lia.
Qed.

Lemma evolve_np_causal ts ts' St Fl St' Fl' it :
  evolve_np p sf ts = Some (St, Fl) ->
  evolve_np p sf ts' = Some (St', Fl') ->
  (it < length ts)%nat -> (it < length ts')%nat ->
  (row 0 St' = row 0 St /\ row 0 Fl' = row 0 Fl)
  /\ ((forall j, (j <= it)%nat -> ts' # j = ts # j) ->
      row it St' = row it St /\ row it Fl' = row it Fl).
Proof.
  unfold evolve_np. intros H H' Hit Hit'. revert H H'.
  destruct (initial_np p sf ts) as [s0|] eqn:I; cbn [bind];
    [|discriminate].
  destruct (initial_np p sf ts') as [s0'|] eqn:I'; cbn [bind];
    [|intros; discriminate].
  destruct (foldM (step_np p sf ts) _ s0) as [s|] eqn:F; cbn [bind];
    [|discriminate].
  destruct (foldM (step_np p sf ts') _ s0') as [s'|] eqn:F'; cbn [bind];
    [|intros; discriminate].
  intros H H'; injection H as <- <-; injection H' as <- <-.
  unfold row. split.
  - destruct (run_np_prefix _ _ _ 0%nat _ F ltac:(lia)) as (a & Ha & Ra).
    destruct (run_np_prefix _ _ _ 0%nat _ F' ltac:(lia)) as (b & Hb & Rb).
    cbn [seq foldM] in Ha, Hb. injection Ha as <-; injection Hb as <-.
    pose proof (initial_np_rows _ _ _ _ I I') as R0.
    destruct (Ra 0%nat (le_n _)) as (A1 & A2 & _).
    destruct (Rb 0%nat (le_n _)) as (B1 & B2 & _).
    destruct (R0 0%nat (le_n _)) as (C1 & C2 & _).
    split; apply index_eq_nth; congruence.
  - intros Hts.
    destruct (run_np_prefix _ _ _ it _ F ltac:(lia)) as (a & Ha & Ra).
    destruct (run_np_prefix _ _ _ it _ F' ltac:(lia)) as (b & Hb & Rb).
    assert (Hidx : forall j, (j <= it)%nat -> index ts' j = index ts j).
    { intros j Hj.
      rewrite (index_nth ts' j 0), (index_nth ts j 0) by lia.
      now rewrite Hts. }
    pose proof (run_np_causal _ _ _ _ I I' it a b Hidx Ha Hb) as R.
    destruct (Ra it (le_n _)) as (A1 & A2 & _).
    destruct (Rb it (le_n _)) as (B1 & B2 & _).
    destruct (R it (le_n _)) as (C1 & C2 & _).
    split; apply index_eq_nth; congruence.
Qed.

End Causality.

Lemma pebble_predictor_with_tgrid p ts :
  pebble_predictor (with_tgrid p ts)
  = bind (statics_np p) (fun sf => evolve_np p sf ts).
Proof. reflexivity. Qed.

(** *** Shapes the operations refuse *)

Section Refusals.
Context {A B C : Type}.



End Refusals.

Section Refused.
Variable p : pars.









End Refused.


(** ** The sample inputs *)

Ltac list_cases i :=
  do 4 (try (destruct i as [|i]; [cbn [nth]; try lra|]));
  cbn [length] in *; try lia.

Ltac check_valid :=
  constructor; unfold N, M, positive, nonnegative, increasing;
  cbn [rgrid tgrid SigmaGas SigmaDust T Mstar alpha vfrag rhop length];
  try lia; try lra; intros i Hi; list_cases i.

Lemma coarse_valid : valid coarse.
Proof. unfold coarse. check_valid. Qed.

Lemma fragile_valid : valid fragile.
Proof. unfold fragile. check_valid. Qed.

Lemma flat_valid : valid flat.
Proof. unfold flat. check_valid. Qed.

Lemma grid124_valid : valid grid124.
Proof. unfold grid124. check_valid. Qed.

(** ** C8: the cell interfaces *)

(** C8. For a radial grid of N >= 2 points the interface array has N + 1
    entries: the first is 1.5 r_first - 0.5 r_second, the interior ones are
    the midpoints of adjacent radii, the last is
    1.5 r_last - 0.5 r_second_to_last; for the grid [1, 2, 4] the interfaces
    are [0.5, 1.5, 3, 5]. *)
Theorem interfaces_of_grid p :
  (2 <= N p)%nat ->
  length (rInt p) = (N p + 1)%nat
  /\ rInt p # 0 = 1.5 * rgrid p # 0 - 0.5 * rgrid p # 1
  /\ (forall i, (S i < N p)%nat ->
      rInt p # (S i) = 0.5 * (rgrid p # (S i) + rgrid p # i))
  /\ rInt p # (N p)
     = 1.5 * rgrid p # (N p - 1) - 0.5 * rgrid p # (N p - 2)
  /\ (rgrid p = [1; 2; 4] -> rInt p = [0.5; 1.5; 3; 5]).
Proof.
  intros HN. split; [now apply length_rInt|].
  split; [now apply rInt_first|].
  split; [intros i Hi; now apply rInt_interior|].
  split; [now apply rInt_last|].
  intros E. unfold rInt, upd_slice. rewrite E.
  cbn [length Nat.add repeat upd tl removelast map map2 firstn skipn app nth
       last Nat.sub].
  repeat (f_equal; try lra).
Qed.

Lemma interfaces_of_grid_witness :
  (2 <= N grid124)%nat
  /\ length (rInt grid124) = 4%nat
  /\ rInt grid124 = [0.5; 1.5; 3; 5].
Proof.
  assert (HN : (2 <= N grid124)%nat) by (unfold N, grid124; simpl; lia).
  destruct (interfaces_of_grid grid124 HN) as (L & _ & _ & _ & E).
  split; [exact HN|]. split; [exact L | exact (E eq_refl)].
Defined.

(** ** C1: the clamp chain *)

(** C1. At every pass it = 1 .. M-1 and every radius ir the stored Stokes
    number is the chain, in this order: the minimum of the turbulent
    fragmentation limit, the drift fragmentation limit and the growth value
    st0 * exp(t[it] / tgrowth), with t[it] the time of the grid itself; then
    the minimum with the drift limit Z / |eta| / 30; then the maximum with
    the monomer Stokes number st0.  The two quotients by |eta| are +inf
    where eta is zero, as numpy has them. *)
Theorem stokes_clamp_chain p St Fl it ir :
  valid p -> pebble_predictor p = Some (St, Fl) ->
  (1 <= it < M p)%nat -> (ir < N p)%nat ->
  let Z :=
    Z0 p # ir
    * (row it (massout (final p)) # ir / row 0 (massout (final p)) # ir) in
  let stini := st0 p # ir * exp (tgrid p # it / tgrowth p # ir) in
  let stdf :=
    xdiv (0.37 * vfrag p)
         (2 * Rabs (eta p # ir) * OmegaK p # ir * rgrid p # ir) in
  let stdrift := xdiv_by 30 (xdiv Z (Rabs (eta p # ir))) in
  Fin (row it St # ir)
  = xmax (xmin (xmin (xmin (Fin (stfrag p # ir)) stdf) (Fin stini)) stdrift)
         (Fin (st0 p # ir)).
Proof.
  intros Hv Hret Hit H. apply (pebble_predictor_inv _ _ _ Hv) in Hret.
  destruct Hret as (Hshape & -> & _). cbv zeta.
  rewrite (st_is_chain p Hv it ir Hit H).
  unfold chain, ceiling.
  rewrite stdf_at, stini_at, stdrift_at by (try assumption; lia).
  reflexivity.
Qed.

Lemma stokes_clamp_chain_witness :
  Fin (row 1 (st (final coarse)) # 0)
  = xmax
      (xmin
         (xmin
            (xmin (Fin (stfrag coarse # 0))
                  (xdiv (0.37 * vfrag coarse)
                        (2 * Rabs (eta coarse # 0) * OmegaK coarse # 0
                         * rgrid coarse # 0)))
            (Fin (st0 coarse # 0
                  * exp (tgrid coarse # 1 / tgrowth coarse # 0))))
         (xdiv_by 30
            (xdiv (Z0 coarse # 0
                   * (row 1 (massout (final coarse)) # 0
                      / row 0 (massout (final coarse)) # 0))
                  (Rabs (eta coarse # 0)))))
      (Fin (st0 coarse # 0)).
Proof.
  apply (stokes_clamp_chain coarse (st (final coarse)) (flux (final coarse))
           1 0).
  - exact coarse_valid.
  - apply pebble_predictor_returns. reflexivity.
  - unfold M, coarse; simpl; lia.
  - unfold N, coarse; simpl; lia.
Defined.

(** ** C2: the monomer floor *)

(** C2. On well-formed input the returned Stokes number is nowhere below the
    monomer Stokes number 0.5 pi a0 rhop / SigmaGas of its radius, row 0
    included. *)
Theorem stokes_floor p St Fl it ir :
  valid p -> pebble_predictor p = Some (St, Fl) ->
  (it < M p)%nat -> (ir < N p)%nat ->
  0.5 * PI * a0 * rhop p / SigmaGas p # ir <= row it St # ir.
Proof.
  intros Hv Hret Hit H. apply (pebble_predictor_inv _ _ _ Hv) in Hret.
  destruct Hret as (Hshape & -> & _).
  rewrite <- st0_at by assumption. now apply st_ge_st0.
Qed.

Lemma stokes_floor_witness :
  0.5 * PI * a0 * rhop coarse / SigmaGas coarse # 1
  <= row 2 (st (final coarse)) # 1.
Proof.
  apply (stokes_floor coarse (st (final coarse)) (flux (final coarse)) 2 1).
  - exact coarse_valid.
  - apply pebble_predictor_returns. reflexivity.
  - unfold M, coarse; simpl; lia.
  - unfold N, coarse; simpl; lia.
Defined.

(** ** C3: the regime ceiling *)

(** C3, as the code has it. On well-formed input, at every pass it >= 1 the
    returned Stokes number is at most the larger of the three-way ceiling
    min(stfrag, stdf, stini) and the monomer Stokes number; it is at most the
    ceiling itself wherever the monomer Stokes number does not exceed the
    ceiling.  (The ceiling is min(stfrag, stini) where eta is zero, stdf
    being +inf there.) *)
Theorem stokes_ceiling_or_floor p St Fl it ir :
  valid p -> pebble_predictor p = Some (St, Fl) ->
  (1 <= it < M p)%nat -> (ir < N p)%nat ->
  xle (Fin (row it St # ir)) (xmax (ceiling p it ir) (Fin (st0 p # ir)))
  /\ (xle (Fin (st0 p # ir)) (ceiling p it ir) ->
      xle (Fin (row it St # ir)) (ceiling p it ir)).
Proof.
  intros Hv Hret Hit H. apply (pebble_predictor_inv _ _ _ Hv) in Hret.
  destruct Hret as (Hshape & -> & _).
  destruct (st_le_ceiling p Hv it ir Hit H) as (c & -> & B).
  cbn [xmax xle]. split; [exact B|]. intros Hle.
  rewrite Rmax_left in B by exact Hle. exact B.
Qed.

Lemma stokes_ceiling_or_floor_witness :
  xle (Fin (row 1 (st (final coarse)) # 0))
      (xmax (ceiling coarse 1 0) (Fin (st0 coarse # 0))).
Proof.
  apply (stokes_ceiling_or_floor coarse (st (final coarse))
           (flux (final coarse)) 1 0).
  - exact coarse_valid.
  - apply pebble_predictor_returns. reflexivity.
  - unfold M, coarse; simpl; lia.
  - unfold N, coarse; simpl; lia.
Defined.

(** ** C7: the initial condition *)

(** C7. On well-formed input row 0 of the Stokes number is the monomer
    Stokes number at every radius, and row 0 of the mass budget is the sum
    over the cells j >= ir of 2 pi r_j dr_j SigmaDust_j, dr being the
    differences of consecutive interfaces. *)
Theorem initial_condition p St Fl ir :
  valid p -> pebble_predictor p = Some (St, Fl) -> (ir < N p)%nat ->
  row 0 St # ir = 0.5 * PI * a0 * rhop p / SigmaGas p # ir
  /\ row 0 (massout (final p)) # ir = mass_outward_spec p ir
  /\ (forall j, (j < N p)%nat -> dr p # j = rInt p # (S j) - rInt p # j).
Proof.
  intros Hv Hret H. apply (pebble_predictor_inv _ _ _ Hv) in Hret.
  destruct Hret as (Hshape & -> & _).
  split; [|split].
  - rewrite st_row0_at, st0_at by assumption. reflexivity.
  - rewrite massout_row0_at by assumption. now apply massout0_as_sum.
  - intros j Hj. now apply dr_at.
Qed.

Lemma initial_condition_witness :
  row 0 (st (final coarse)) # 1
  = 0.5 * PI * a0 * rhop coarse / SigmaGas coarse # 1
  /\ row 0 (massout (final coarse)) # 1 = mass_outward_spec coarse 1.
Proof.
  destruct (initial_condition coarse (st (final coarse))
              (flux (final coarse)) 1) as (H1 & H2 & _).
  - exact coarse_valid.
  - apply pebble_predictor_returns. reflexivity.
  - unfold N, coarse; simpl; lia.
  - split; [exact H1 | exact H2].
Defined.

(** ** C10: the drift velocity *)

(** C10. On well-formed input the velocity of the drift law
    2 |eta| Omega r St / (1 + St^2) is at most |eta| Omega r at its radius,
    for any row of Stokes numbers and so for every row the function stores;
    the minimum with r / tgrowth / 30 keeps the bound. *)
Theorem drift_velocity_bound p St Fl it ir strow :
  valid p -> pebble_predictor p = Some (St, Fl) ->
  (it < M p)%nat -> (ir < N p)%nat ->
  length strow = N p -> 0 <= strow # ir ->
  let bound := Rabs (eta p # ir) * OmegaK p # ir * rgrid p # ir in
  drift_velocity p strow # ir <= bound
  /\ growth_cap p (drift_velocity p strow) # ir <= bound
  /\ 0 <= row it St # ir
  /\ drift_velocity p (row it St) # ir <= bound
  /\ growth_cap p (drift_velocity p (row it St)) # ir <= bound.
Proof.
  intros Hv Hret Hit H Hl Hs bound. apply (pebble_predictor_inv _ _ _ Hv) in Hret.
  destruct Hret as (Hshape & -> & _).
  destruct (final_row_lengths p Hshape it Hit) as (Ls & _ & _).
  pose proof (drift_velocity_le p Hv strow ir Hl H) as B1.
  pose proof (drift_velocity_le p Hv _ ir Ls H) as B2.
  pose proof (growth_cap_le p Hv _ ir
                (length_drift_velocity p Hshape _ Hl) H) as C1.
  pose proof (growth_cap_le p Hv _ ir
                (length_drift_velocity p Hshape _ Ls) H) as C2.
  pose proof (st_final_pos p Hv it ir Hit H).
  unfold bound. repeat split; lra.
Qed.

Lemma drift_velocity_bound_witness :
  growth_cap coarse (drift_velocity coarse (row 1 (st (final coarse)))) # 0
  <= Rabs (eta coarse # 0) * OmegaK coarse # 0 * rgrid coarse # 0.
Proof.
  apply (drift_velocity_bound coarse (st (final coarse))
           (flux (final coarse)) 1 0 [1; 1]).
  - exact coarse_valid.
  - apply pebble_predictor_returns. reflexivity.
  - unfold M, coarse; simpl; lia.
  - unfold N, coarse; simpl; lia.
  - reflexivity.
  - cbn [nth]. lra.
Defined.

(** ** C4: the mass budget over time *)

(** C4, as the code has it. On well-formed input the mass budget of a cell
    does not grow over a pass that starts from a non-negative budget:
    if massout[it, ir] >= 0 then massout[it+1, ir] <= massout[it, ir].
    The budget of row 0 is positive, so the first pass never raises it. *)
Theorem massout_step_nonincreasing p it ir :
  valid p -> (S it < M p)%nat -> (ir < N p)%nat ->
  0 <= row it (massout (final p)) # ir ->
  row (S it) (massout (final p)) # ir <= row it (massout (final p)) # ir
  /\ row 1 (massout (final p)) # ir <= row 0 (massout (final p)) # ir.
Proof.
  intros Hv Hit H Hm. pose proof (valid_shapes p Hv) as Hshape.
  assert (step_ok : forall k, (S k < M p)%nat ->
            0 <= row k (massout (final p)) # ir ->
            row (S k) (massout (final p)) # ir
            <= row k (massout (final p)) # ir).
  { intros k Hk Hmk. rewrite massout_at by (try assumption; lia).
    replace (S k - 1)%nat with k by lia.
    pose proof (flux_nonneg_of_mass p Hv k ir ltac:(lia) H Hmk).
    pose proof (v_t_inc p Hv k Hk).
    assert (0 <= row k (flux (final p)) # ir
                 * (tgrid p # (S k) - tgrid p # k))
      by (apply Rmult_le_pos; lra).
    lra. }
  split; [now apply step_ok|].
  apply step_ok; [lia|]. left. now apply massout_row0_pos.
Qed.

Lemma massout_step_nonincreasing_witness :
  row 1 (massout (final coarse)) # 0 <= row 0 (massout (final coarse)) # 0.
Proof.
  assert (HN : (0 < N coarse)%nat) by (unfold N, coarse; simpl; lia).
  apply (massout_step_nonincreasing coarse 0 0).
  - exact coarse_valid.
  - unfold M, coarse; simpl; lia.
  - exact HN.
  - left. exact (massout_row0_pos coarse coarse_valid 0%nat HN).
Defined.

(** ** C5: the sign of the flux *)

(** C5, as the code has it. On well-formed input an entry of the returned
    flux is non-negative wherever the mass budget of that time and radius is
    non-negative; this covers the whole of row 0. *)
Theorem flux_nonneg_while_mass_left p St Fl it ir :
  valid p -> pebble_predictor p = Some (St, Fl) ->
  (it < M p)%nat -> (ir < N p)%nat ->
  (0 <= row it (massout (final p)) # ir -> 0 <= row it Fl # ir)
  /\ 0 <= row 0 Fl # ir.
Proof.
  intros Hv Hret Hit H. apply (pebble_predictor_inv _ _ _ Hv) in Hret.
  destruct Hret as (Hshape & _ & ->).
  split; [now apply flux_nonneg_of_mass | now apply flux_row0_nonneg].
Qed.

Lemma flux_nonneg_while_mass_left_witness :
  0 <= row 0 (flux (final coarse)) # 1.
Proof.
  apply (flux_nonneg_while_mass_left coarse (st (final coarse))
           (flux (final coarse)) 0 1).
  - exact coarse_valid.
  - apply pebble_predictor_returns. reflexivity.
  - unfold M, coarse; simpl; lia.
  - unfold N, coarse; simpl; lia.
Defined.

(** ** C6: no validation at the boundary *)




(** ** Disks of two radii *)

Lemma list_of_two (l : list R) : length l = 2%nat -> l = [l # 0; l # 1].
Proof.
  destruct l as [|a [|b [|c l]]]; simpl; intros E; try discriminate.
  reflexivity.
Qed.

Section TwoRadii.
Variable p : pars.
Hypothesis Hv : valid p.
Hypothesis HN2 : N p = 2%nat.

Let Hshape : shapes_ok p = true := valid_shapes p Hv.

Lemma two_radii_increase : rgrid p # 0 < rgrid p # 1.
Proof. apply (v_r_inc p Hv). fold (N p). lia. Qed.

Lemma two_radii_rInt :
  rInt p # 0 = 1.5 * rgrid p # 0 - 0.5 * rgrid p # 1
  /\ rInt p # 1 = 0.5 * (rgrid p # 1 + rgrid p # 0)
  /\ rInt p # 2 = 1.5 * rgrid p # 1 - 0.5 * rgrid p # 0.
Proof.
  split; [apply rInt_first; lia|].
  split; [apply rInt_interior; lia|].
  pose proof (rInt_last p ltac:(lia)) as E. rewrite HN2 in E. exact E.
Qed.

Lemma two_radii_dr ir :
  (ir < 2)%nat -> dr p # ir = rgrid p # 1 - rgrid p # 0.
Proof.
  intros H. destruct two_radii_rInt as (E0 & E1 & E2).
  rewrite dr_at by (try assumption; lia).
  destruct ir as [|[|ir]]; [rewrite E1, E0|rewrite E2, E1|lia]; lra.
Qed.

Lemma two_radii_pgInt :
  pgInt p # 0 = pg p # 0
  /\ pgInt p # 1 = (pg p # 0 + pg p # 1) / 2
  /\ pgInt p # 2 = pg p # 1.
Proof.
  pose proof two_radii_increase as Hinc.
  destruct two_radii_rInt as (E0 & E1 & E2).
  pose proof (list_of_two (rgrid p) HN2) as Er.
  pose proof (list_of_two (pg p)
                (eq_trans (length_pg p Hshape) HN2)) as Ep.
  rewrite !pgInt_at by (try assumption; lia).
  rewrite E0, E1, E2, Er, Ep. cbn [interp1 interp_seg nth].
  set (r0 := rgrid p # 0) in *. set (r1 := rgrid p # 1) in *.
  repeat split.
  - destruct (Rle_dec (1.5 * r0 - 0.5 * r1) r0); [reflexivity | lra].
  - destruct (Rle_dec (0.5 * (r1 + r0)) r0); [lra|].
    destruct (Rlt_dec (0.5 * (r1 + r0)) r1); [|lra].
    replace (0.5 * (r1 + r0) - r0) with ((r1 - r0) / 2) by lra.
    field. lra.
  - destruct (Rle_dec (1.5 * r1 - 0.5 * r0) r0); [lra|].
    destruct (Rlt_dec (1.5 * r1 - 0.5 * r0) r1); [lra | reflexivity].
Qed.

Lemma two_radii_eta ir :
  (ir < 2)%nat ->
  eta p # ir
  = (pg p # 1 - pg p # 0) / 2 / (rgrid p # 1 - rgrid p # 0)
    / (2 * rhog p # ir * OmegaK p # ir ^ 2 * rgrid p # ir).
Proof.
  intros H. destruct two_radii_pgInt as (E0 & E1 & E2).
  rewrite eta_at, two_radii_dr by (try assumption; lia).
  destruct ir as [|[|ir]]; [rewrite E1, E0|rewrite E2, E1|lia];
    f_equal; f_equal; lra.
Qed.

(** When the second radius is four times the first, the Keplerian
    frequency drops by a factor eight. *)
Lemma two_radii_OmegaK :
  rgrid p # 1 = 4 * rgrid p # 0 -> OmegaK p # 0 = 8 * OmegaK p # 1.
Proof.
  intros E. rewrite !OmegaK_at by (try assumption; lia). rewrite E.
  pose proof (r_pos p Hv 0%nat ltac:(lia)) as Hr.
  pose proof Grav_pos. pose proof (v_Mstar p Hv).
  set (r0 := rgrid p # 0) in *.
  assert (Hq : 0 < Grav * Mstar p / (4 * r0) ^ 3).
  { apply Rdiv_lt_0_compat; [nra|]. apply pow_lt. lra. }
  replace (Grav * Mstar p / r0 ^ 3)
    with (8 * 8 * (Grav * Mstar p / (4 * r0) ^ 3)) by (field; lra).
  rewrite sqrt_mult by lra. rewrite sqrt_square by lra. reflexivity.
Qed.

End TwoRadii.

(** ** C9: the divisors *)

Lemma eta_zero_iff p ir :
  valid p -> (ir < N p)%nat ->
  eta p # ir = 0 <-> pgInt p # (S ir) = pgInt p # ir.
Proof.
  intros Hv H. pose proof (valid_shapes p Hv) as Hshape.
  rewrite eta_at by assumption.
  pose proof (dr_pos p Hv ir H) as Hd.
  assert (HD : 0 < 2 * rhog p # ir * OmegaK p # ir ^ 2 * rgrid p # ir).
  { pose proof (rhog_pos p Hv ir H). pose proof (r_pos p Hv ir H).
    assert (0 < OmegaK p # ir ^ 2)
      by (apply pow_lt; now apply OmegaK_pos).
    apply Rmult_lt_0_compat; [apply Rmult_lt_0_compat|]; lra. }
  set (D := 2 * rhog p # ir * OmegaK p # ir ^ 2 * rgrid p # ir) in *.
  set (d := dr p # ir) in *.
  set (x := pgInt p # (S ir) - pgInt p # ir).
  assert (Hx : x / d / D = x * (/ d * / D)) by (unfold Rdiv; ring).
  assert (Hk : 0 < / d * / D)
    by (apply Rmult_lt_0_compat; now apply Rinv_0_lt_compat).
  rewrite Hx. split.
  - intros E. apply Rmult_integral in E. destruct E as [E|E]; [|lra].
    unfold x in E. lra.
  - intros E. unfold x. rewrite E. ring.
Qed.

(** C9, as the code has it. On well-formed input every divisor of the
    computation other than |eta| is non-zero; |eta| at a radius, and with it
    the divisor of the drift fragmentation limit, is non-zero exactly when
    the pressures interpolated at the two interfaces of the cell differ. *)
Theorem divisors_nonzero p it ir :
  valid p -> (it < M p)%nat -> (ir < N p)%nat ->
  2.3 * m_p <> 0
  /\ rgrid p # ir ^ 3 <> 0
  /\ sqrt (2 * PI) * cs p # ir <> 0
  /\ dr p # ir <> 0
  /\ ((S ir < N p)%nat -> rgrid p # (S ir) - rgrid p # ir <> 0)
  /\ 2 * rhog p # ir * OmegaK p # ir ^ 2 * rgrid p # ir <> 0
  /\ 3 * alpha p * cs p # ir ^ 2 <> 0
  /\ SigmaGas p # ir <> 0
  /\ au <> 0
  /\ Rpower (alpha p / 1e-4) 0.3333 * Z0 p # ir * OmegaK p # ir
     * Rpower (rgrid p # ir / au) (- 0.3333) <> 0
  /\ tgrowth p # ir <> 0
  /\ fff <> 0
  /\ 1 + row it (st (final p)) # ir ^ 2 <> 0
  /\ row 0 (massout (final p)) # ir <> 0
  /\ (Rabs (eta p # ir) <> 0 <-> pgInt p # (S ir) <> pgInt p # ir)
  /\ (2 * Rabs (eta p # ir) * OmegaK p # ir * rgrid p # ir <> 0
      <-> pgInt p # (S ir) <> pgInt p # ir).
Proof.
  intros Hv Hit H. pose proof (valid_shapes p Hv) as Hshape.
  pose proof m_p_pos. pose proof au_pos. pose proof fff_pos.
  pose proof (r_pos p Hv ir H) as Hr.
  pose proof (cs_pos p Hv ir H) as Hc.
  pose proof (OmegaK_pos p Hv ir H) as Hw.
  pose proof (rhog_pos p Hv ir H).
  pose proof (dr_pos p Hv ir H).
  pose proof (gas_pos p Hv ir H).
  pose proof (tgrowth_denominator_pos p Hv ir H).
  pose proof (tgrowth_pos p Hv ir H).
  pose proof (massout_row0_pos p Hv ir H).
  pose proof (v_alpha p Hv).
  pose proof sqrt_2PI_pos.
  pose proof (pow2_ge_0 (row it (st (final p)) # ir)).
  assert (0 < rgrid p # ir ^ 3) by (now apply pow_lt).
  assert (0 < cs p # ir ^ 2) by (now apply pow_lt).
  assert (0 < OmegaK p # ir ^ 2) by (now apply pow_lt).
  assert (0 < sqrt (2 * PI) * cs p # ir)
    by (now apply Rmult_lt_0_compat).
  assert (0 < 2 * rhog p # ir * OmegaK p # ir ^ 2 * rgrid p # ir)
    by (apply Rmult_lt_0_compat; [apply Rmult_lt_0_compat|]; lra).
  assert (0 < 3 * alpha p * cs p # ir ^ 2)
    by (apply Rmult_lt_0_compat; lra).
  assert (Habs : Rabs (eta p # ir) <> 0
                 <-> pgInt p # (S ir) <> pgInt p # ir).
  { rewrite <- (eta_zero_iff p ir Hv H). split.
    - intros A E. apply A. rewrite E. apply Rabs_R0.
    - intros A E. apply A.
      destruct (Req_dec (eta p # ir) 0) as [Z|NZ]; [exact Z|].
      exfalso. exact (Rabs_no_R0 _ NZ E). }
  do 4 (split; [lra|]).
  split.
  { intros Hs. pose proof (v_r_inc p Hv ir Hs). lra. }
  do 9 (split; [lra|]).
  split; [exact Habs|].
  rewrite <- Habs. split.
  - intros A E. apply A. rewrite E. ring.
  - intros A E. apply A.
    assert (0 < 2 * OmegaK p # ir * rgrid p # ir)
      by (apply Rmult_lt_0_compat; lra).
    replace (2 * Rabs (eta p # ir) * OmegaK p # ir * rgrid p # ir)
      with (Rabs (eta p # ir) * (2 * OmegaK p # ir * rgrid p # ir))
      in E by ring.
    apply Rmult_integral in E. destruct E as [E|E]; [exact E | lra].
Qed.

Lemma divisors_nonzero_witness :
  dr coarse # 0 <> 0 /\ tgrowth coarse # 0 <> 0
  /\ row 0 (massout (final coarse)) # 0 <> 0.
Proof.
  assert (HM : (1 < M coarse)%nat) by (unfold M, coarse; simpl; lia).
  assert (HN : (0 < N coarse)%nat) by (unfold N, coarse; simpl; lia).
  pose proof (divisors_nonzero coarse 1 0 coarse_valid HM HN) as D.
  repeat split; apply D.
Defined.

Lemma PI_gt_3 : 3 < PI.
Proof. pose proof PI2_3_2. lra. Qed.

(** C9 fails on the code: with a gas surface density that grows like the
    inverse of the Keplerian frequency the midplane pressure is the same at
    both radii, so eta and the divisor of the drift fragmentation limit are
    zero on well-formed input. *)
Lemma eta_zero_on_flat_pressure :
  valid flat /\ (0 < N flat)%nat
  /\ Rabs (eta flat # 0) = 0
  /\ 2 * Rabs (eta flat # 0) * OmegaK flat # 0 * rgrid flat # 0 = 0.
Proof.
  pose proof flat_valid as Hv. pose proof (valid_shapes _ Hv) as Hshape.
  assert (HN2 : N flat = 2%nat) by reflexivity.
  assert (Hw : OmegaK flat # 0 = 8 * OmegaK flat # 1).
  { apply two_radii_OmegaK; [exact Hv | exact HN2|].
    unfold flat; cbn [rgrid nth]. lra. }
  assert (Hc : cs flat # 0 = cs flat # 1).
  { rewrite !cs_at by (try assumption; rewrite HN2; lia). reflexivity. }
  assert (Hp : pg flat # 1 = pg flat # 0).
  { rewrite !pg_at, !rhog_at by (try assumption; rewrite HN2; lia).
    rewrite Hw, Hc.
    change (SigmaGas flat # 0) with 10. change (SigmaGas flat # 1) with 80.
    unfold Rdiv. ring. }
  assert (He : eta flat # 0 = 0).
  { rewrite two_radii_eta by (try assumption; lia).
    rewrite Hp. unfold Rdiv. ring. }
  split; [exact Hv|]. split; [rewrite HN2; lia|].
  rewrite He, Rabs_R0. split; [reflexivity | ring].
Qed.

(** C3 fails on the code: for grains that fragment at 1 cm/s the turbulent
    fragmentation limit lies below the monomer Stokes number, and the floor
    of the last clamp lifts the stored value above the three-way ceiling. *)
Lemma floor_lifts_above_ceiling :
  valid fragile
  /\ pebble_predictor fragile
     = Some (st (final fragile), flux (final fragile))
  /\ ~ xle (Fin (row 1 (st (final fragile)) # 0))
           (xmin (xmin (Fin (stfrag fragile # 0)) (stdf fragile ## 0))
                 (Fin (st0 fragile # 0
                       * exp (tgrid fragile # 1 / tgrowth fragile # 0)))).
Proof.
  pose proof fragile_valid as Hv. pose proof (valid_shapes _ Hv) as Hshape.
  assert (HN : (0 < N fragile)%nat) by (unfold N, fragile; simpl; lia).
  assert (HM : (1 < M fragile)%nat) by (unfold M, fragile; simpl; lia).
  split; [exact Hv|].
  split; [now apply pebble_predictor_returns|].
  pose proof (st_ge_st0 fragile Hv 1 0 HM HN) as Hfloor.
  assert (Hlt : stfrag fragile # 0 < st0 fragile # 0).
  { rewrite stfrag_at, st0_at, cs_at by assumption.
    change (T fragile # 0) with 200. change (SigmaGas fragile # 0) with 10.
    change (vfrag fragile) with 1. change (alpha fragile) with 1e-3.
    change (rhop fragile) with 1.6.
    rewrite pow2_sqrt by (unfold k_b, m_p; lra).
    pose proof PI_gt_3. unfold k_b, m_p, a0. lra. }
  set (a := stfrag fragile # 0) in *.
  set (b := st0 fragile # 0 * exp (tgrid fragile # 1 / tgrowth fragile # 0)).
  set (x := row 1 (st (final fragile)) # 0) in *.
  destruct (stdf fragile ## 0) as [d| | |]; cbn [xmin xle]; intros Hle;
    try exact Hle.
  - pose proof (Rmin_l (Rmin a d) b). pose proof (Rmin_l a d). lra.
  - pose proof (Rmin_l a b). lra.
Qed.


(** ** The coarse march: a mass budget that is overdrawn *)

Lemma le_div_of_mul_le (a b c : R) : 0 < c -> a * c <= b -> a <= b / c.
Proof.
  intros Hc H. apply (Rmult_le_reg_r c); [assumption|].
  unfold Rdiv. rewrite Rmult_assoc, Rinv_l by lra. lra.
Qed.

Lemma coarse_eta_last :
  Rabs (eta coarse # 1)
  = 7 * cs coarse # 1 ^ 2
    / (4 * 4.5e13 * OmegaK coarse # 1 ^ 2 * rgrid coarse # 1).
Proof.
  pose proof coarse_valid as Hv. pose proof (valid_shapes _ Hv) as Hshape.
  assert (HN2 : N coarse = 2%nat) by reflexivity.
  assert (H1 : (1 < N coarse)%nat) by (rewrite HN2; lia).
  assert (H0 : (0 < N coarse)%nat) by (rewrite HN2; lia).
  assert (Hw : OmegaK coarse # 0 = 8 * OmegaK coarse # 1).
  { apply two_radii_OmegaK; [exact Hv | exact HN2|].
    unfold coarse; cbn [rgrid nth]. lra. }
  assert (Hc : cs coarse # 0 = cs coarse # 1).
  { rewrite !cs_at by assumption. reflexivity. }
  pose proof (cs_pos _ Hv 1%nat H1) as Hcp.
  pose proof (OmegaK_pos _ Hv 1%nat H1) as Hwp.
  pose proof sqrt_2PI_pos as Hsp.
  assert (He : eta coarse # 1
               = - (7 * cs coarse # 1 ^ 2
                    / (4 * 4.5e13 * OmegaK coarse # 1 ^ 2
                       * rgrid coarse # 1))).
  { rewrite two_radii_eta by (try assumption; lia).
    rewrite !pg_at, !rhog_at by assumption.
    rewrite Hw, Hc.
    change (SigmaGas coarse # 0) with 10.
    change (SigmaGas coarse # 1) with 10.
    change (rgrid coarse # 1) with 6e13.
    change (rgrid coarse # 0) with 1.5e13.
    replace (6e13 - 1.5e13) with 45000000000000 by lra.
    replace 4.5e13 with 45000000000000 by lra.
    replace 6e13 with 60000000000000 by lra.
    set (w := OmegaK coarse # 1) in *. set (c := cs coarse # 1) in *.
    set (s := sqrt (2 * PI)) in *. clearbody w c s.
    field. repeat split; lra. }
  rewrite He, Rabs_Ropp. apply Rabs_pos_eq.
  change (rgrid coarse # 1) with 6e13.
  assert (0 < cs coarse # 1 ^ 2) by (now apply pow_lt).
  assert (0 < OmegaK coarse # 1 ^ 2) by (now apply pow_lt).
  left. apply Rdiv_lt_0_compat; [lra|].
  apply Rmult_lt_0_compat; [apply Rmult_lt_0_compat|]; lra.
Qed.

Lemma coarse_OmegaK_last : 0 < OmegaK coarse # 1 <= 3e-8.
Proof.
  pose proof coarse_valid as Hv. pose proof (valid_shapes _ Hv) as Hshape.
  assert (H1 : (1 < N coarse)%nat) by (unfold N, coarse; simpl; lia).
  split; [now apply OmegaK_pos|].
  rewrite OmegaK_at by assumption.
  change (rgrid coarse # 1) with 6e13. change (Mstar coarse) with 2e33.
  rewrite <- (sqrt_square 3e-8) by lra.
  apply sqrt_le_1_alt. unfold Grav. lra.
Qed.

Lemma coarse_st0_last : 2.4e-5 < st0 coarse # 1 <= 3.2e-5.
Proof.
  pose proof coarse_valid as Hv. pose proof (valid_shapes _ Hv) as Hshape.
  assert (H1 : (1 < N coarse)%nat) by (unfold N, coarse; simpl; lia).
  rewrite st0_at by assumption.
  change (SigmaGas coarse # 1) with 10. change (rhop coarse) with 1.6.
  pose proof PI_gt_3. pose proof PI_4. unfold a0. lra.
Qed.

Lemma coarse_cs_last : 7e9 < cs coarse # 1 ^ 2.
Proof.
  pose proof coarse_valid as Hv. pose proof (valid_shapes _ Hv) as Hshape.
  assert (H1 : (1 < N coarse)%nat) by (unfold N, coarse; simpl; lia).
  rewrite cs_at by assumption. change (T coarse # 1) with 200.
  rewrite pow2_sqrt by (unfold k_b, m_p; lra).
  unfold k_b, m_p. lra.
Qed.

Lemma coarse_drift_last :
  0.2 <= drift_velocity coarse (st0 coarse) # 1.
Proof.
  pose proof coarse_valid as Hv. pose proof (valid_shapes _ Hv) as Hshape.
  assert (H1 : (1 < N coarse)%nat) by (unfold N, coarse; simpl; lia).
  rewrite drift_velocity_at by (try assumption; now apply length_st0).
  rewrite coarse_eta_last. change (rgrid coarse # 1) with 6e13.
  destruct coarse_OmegaK_last as (Hw0 & Hw1).
  destruct coarse_st0_last as (Hs0 & Hs1).
  pose proof coarse_cs_last as Hc.
  set (w := OmegaK coarse # 1) in *. set (c2 := cs coarse # 1 ^ 2) in *.
  set (s := st0 coarse # 1) in *. clearbody w c2 s.
  replace 4.5e13 with 45000000000000 by lra.
  replace 6e13 with 60000000000000 by lra.
  replace (2 * (7 * c2 / (4 * 45000000000000 * w ^ 2 * 60000000000000))
           * w * 60000000000000 * s / (1 + s ^ 2))
    with (7 * c2 * s / (90000000000000 * w * (1 + s ^ 2)))
    by (field; repeat split; nra).
  assert (Hs2 : 1 + s ^ 2 <= 2) by nra.
  assert (Hs3 : 0 < 1 + s ^ 2) by nra.
  assert (HD : 90000000000000 * w * (1 + s ^ 2) <= 5400000)
    by (replace 5400000 with (90000000000000 * 3e-8 * 2) by lra;
        apply Rmult_le_compat; nra).
  assert (HN : 1176000 <= 7 * c2 * s) by nra.
  apply le_div_of_mul_le; [|lra].
  apply Rmult_lt_0_compat; [nra | assumption].
Qed.

Lemma coarse_eta_last_nonzero : eta coarse # 1 <> 0.
Proof.
  intros E. pose proof coarse_eta_last as A. rewrite E, Rabs_R0 in A.
  pose proof coarse_cs_last. destruct coarse_OmegaK_last as (Hw & _).
  change (rgrid coarse # 1) with 6e13 in A.
  assert (0 < OmegaK coarse # 1 ^ 2) by (now apply pow_lt).
  assert (0 < 7 * cs coarse # 1 ^ 2
              / (4 * 4.5e13 * OmegaK coarse # 1 ^ 2 * 6e13)).
  { apply Rdiv_lt_0_compat; [lra|].
    apply Rmult_lt_0_compat; [apply Rmult_lt_0_compat|]; lra. }
  lra.
Qed.

(** The first step of the coarse march takes more out of the outer cell
    than the cell holds. *)
Lemma coarse_mass_overdrawn : row 1 (massout (final coarse)) # 1 < 0.
Proof.
  pose proof coarse_valid as Hv. pose proof (valid_shapes _ Hv) as Hshape.
  assert (HN2 : N coarse = 2%nat) by reflexivity.
  assert (H1 : (1 < N coarse)%nat) by (rewrite HN2; lia).
  assert (HM : (1 <= 1 < M coarse)%nat) by (unfold M, coarse; simpl; lia).
  rewrite massout_at by assumption.
  change (1 - 1)%nat with 0%nat.
  rewrite massout_row0_at, massout0_as_sum, flux_row0_at by assumption.
  unfold mass_outward_spec. change (N coarse - 1)%nat with 1%nat.
  cbn [seq map vsum fold_right].
  rewrite two_radii_dr by (try assumption; lia).
  change (rgrid coarse # 1) with 6e13. change (rgrid coarse # 0) with 1.5e13.
  change (SigmaDust coarse # 1) with 0.1.
  change (tgrid coarse # 1) with 1e15. change (tgrid coarse # 0) with 0.
  pose proof coarse_drift_last as Hd. pose proof PI_gt_3 as Hpi.
  set (v := drift_velocity coarse (st0 coarse) # 1) in *. clearbody v.
  assert (PI * 0.2 <= PI * v) by (apply Rmult_le_compat_l; lra).
  lra.
Qed.

Lemma coarse_flux_negative : row 1 (flux (final coarse)) # 1 < 0.
Proof.
  apply flux_neg_of_mass.
  - exact coarse_valid.
  - unfold M, coarse; simpl; lia.
  - unfold N, coarse; simpl; lia.
  - exact coarse_eta_last_nonzero.
  - exact coarse_mass_overdrawn.
Qed.

(** C5 fails on the code: once the mass budget of a cell is negative the
    flux stored for it, a positive rate times the fraction of the budget
    that is left, is negative. *)
Lemma flux_negative_after_overdraw :
  valid coarse
  /\ pebble_predictor coarse = Some (st (final coarse), flux (final coarse))
  /\ ~ 0 <= row 1 (flux (final coarse)) # 1.
Proof.
  split; [exact coarse_valid|].
  split; [apply pebble_predictor_returns; reflexivity|].
  pose proof coarse_flux_negative. lra.
Qed.

(** C4 fails on the code: the negative flux of the overdrawn cell raises its
    mass budget at the next pass. *)
Lemma massout_grows_after_overdraw :
  valid coarse
  /\ ~ row 2 (massout (final coarse)) # 1
       <= row 1 (massout (final coarse)) # 1.
Proof.
  pose proof coarse_valid as Hv. pose proof (valid_shapes _ Hv) as Hshape.
  split; [exact Hv|].
  assert (H1 : (1 < N coarse)%nat) by (unfold N, coarse; simpl; lia).
  assert (HM : (1 <= 2 < M coarse)%nat) by (unfold M, coarse; simpl; lia).
  rewrite (massout_at coarse Hshape 2 1 HM H1).
  change (2 - 1)%nat with 1%nat.
  change (tgrid coarse # 2) with 2e15. change (tgrid coarse # 1) with 1e15.
  pose proof coarse_flux_negative as Hf.
  set (f := row 1 (flux (final coarse)) # 1) in *.
  set (m := row 1 (massout (final coarse)) # 1). clearbody f m.
  nra.
Qed.

(** * Further properties of the code *)

(** ** The radial cells (lines 45-49) *)

Lemma vsum_diffs (a : R) (l : list R) :
  l <> [] -> vsum (l .- removelast (a :: l)) = last l 0 - a.
Proof.
  revert a; induction l as [|b l IH]; intros a Hne; [congruence|].
  destruct l as [|c l].
  - simpl. lra.
  - change (removelast (a :: b :: c :: l))
      with (a :: removelast (b :: c :: l)).
    change (vsum ((b :: c :: l) .- (a :: removelast (b :: c :: l))))
      with (b - a + vsum ((c :: l) .- removelast (b :: c :: l))).
    rewrite IH by discriminate.
    change (last (b :: c :: l) 0) with (last (c :: l) 0). lra.
Qed.

Lemma dr_formulas p ir :
  valid p -> (ir < N p)%nat ->
  (ir = 0%nat -> dr p # ir = rgrid p # 1 - rgrid p # 0)
  /\ (S ir = N p -> dr p # ir = rgrid p # ir - rgrid p # (ir - 1))
  /\ ((0 < ir)%nat -> (S ir < N p)%nat ->
      dr p # ir = 0.5 * (rgrid p # (S ir) - rgrid p # (ir - 1))).
Proof.
  intros Hv H. pose proof (valid_shapes p Hv) as Hshape.
  pose proof (v_N p Hv) as HN.
  rewrite dr_at by assumption.
  split; [|split].
  - intros ->. rewrite rInt_interior, rInt_first by lia. lra.
  - intros E. rewrite E, rInt_last by assumption.
    destruct ir as [|k]; [lia|]. rewrite rInt_interior by lia.
    replace (N p - 1)%nat with (S k) by lia.
    replace (N p - 2)%nat with k by lia.
    replace (S k - 1)%nat with k by lia. lra.
  - intros H0 H1. destruct ir as [|k]; [lia|].
    rewrite !rInt_interior by lia.
    replace (S k - 1)%nat with k by lia. lra.
Qed.

(** X1. The width of a cell is the distance between the two radii at either
    end of the grid and half the distance between the two neighbours of an
    interior radius; on a positive increasing grid every width is
    positive. *)
Theorem cell_widths p ir :
  valid p -> (ir < N p)%nat ->
  0 < dr p # ir
  /\ (ir = 0%nat -> dr p # ir = rgrid p # 1 - rgrid p # 0)
  /\ (S ir = N p -> dr p # ir = rgrid p # ir - rgrid p # (ir - 1))
  /\ ((0 < ir)%nat -> (S ir < N p)%nat ->
      dr p # ir = 0.5 * (rgrid p # (S ir) - rgrid p # (ir - 1))).
Proof.
  intros Hv H. split; [now apply dr_pos | now apply dr_formulas].
Qed.

Lemma cell_widths_witness :
  0 < dr grid124 # 1
  /\ dr grid124 # 1 = 0.5 * (rgrid grid124 # 2 - rgrid grid124 # 0).
Proof.
  assert (H : (1 < N grid124)%nat) by (unfold N, grid124; simpl; lia).
  destruct (cell_widths grid124 1 grid124_valid H) as (P & _ & _ & I).
  split; [exact P|]. apply I; unfold N, grid124; simpl; lia.
Defined.

(** X2. The widths add up to the distance between the outermost and the
    innermost interface. *)
Theorem cell_widths_total p :
  (2 <= N p)%nat ->
  vsum (dr p)
  = (1.5 * rgrid p # (N p - 1) - 0.5 * rgrid p # (N p - 2))
    - (1.5 * rgrid p # 0 - 0.5 * rgrid p # 1).
Proof.
  intros HN. pose proof (length_rInt p HN) as L.
  rewrite <- rInt_last, <- rInt_first by assumption.
  unfold dr. destruct (rInt p) as [|a l] eqn:E; [simpl in L; lia|].
  cbn [tl]. rewrite vsum_diffs.
  - cbn [nth]. f_equal.
    change (last l 0) with (last l 0).
    assert (Hl : l <> []) by (intros ->; simpl in L; lia).
    rewrite last_as_nth. simpl in L.
    replace (N p) with (S (length l - 1)) by lia.
    reflexivity.
  - intros ->. simpl in L. lia.
Qed.

Lemma cell_widths_total_witness : vsum (dr grid124) = 4.5.
Proof.
  assert (H : (2 <= N grid124)%nat) by (unfold N, grid124; simpl; lia).
  rewrite (cell_widths_total grid124 H).
  unfold N, grid124; cbn [rgrid length Nat.sub nth]. lra.
Defined.

(** X3. On a positive increasing grid every radius lies strictly inside its
    cell, between the two interfaces that bound it, so the interfaces
    increase; the innermost interface is positive only when the second
    radius is less than three times the first. *)
Theorem radius_inside_cell p ir :
  valid p -> (ir < N p)%nat ->
  rInt p # ir < rgrid p # ir < rInt p # (S ir)
  /\ (0 < rInt p # 0 <-> rgrid p # 1 < 3 * rgrid p # 0).
Proof.
  intros Hv H. pose proof (v_N p Hv) as HN.
  pose proof (v_r_inc p Hv) as Hinc. unfold increasing in Hinc.
  fold (N p) in Hinc.
  split; [|rewrite rInt_first by assumption; split; intros; lra].
  split.
  - destruct ir as [|k].
    + rewrite rInt_first by assumption.
      pose proof (Hinc 0%nat ltac:(lia)). lra.
    + rewrite rInt_interior by lia. pose proof (Hinc k ltac:(lia)). lra.
  - destruct (Nat.eq_dec (S ir) (N p)) as [E|NE].
    + rewrite E, rInt_last by assumption.
      destruct ir as [|k]; [lia|].
      replace (N p - 1)%nat with (S k) by lia.
      replace (N p - 2)%nat with k by lia.
      pose proof (Hinc k ltac:(lia)). lra.
    + rewrite rInt_interior by lia. pose proof (Hinc ir ltac:(lia)). lra.
Qed.

Lemma radius_inside_cell_witness :
  rInt coarse # 1 < rgrid coarse # 1 < rInt coarse # 2
  /\ ~ 0 < rInt coarse # 0.
Proof.
  assert (H : (1 < N coarse)%nat) by (unfold N, coarse; simpl; lia).
  destruct (radius_inside_cell coarse 1 coarse_valid H) as (B & I).
  split; [exact B|]. intros P. apply I in P.
  unfold coarse in P; cbn [rgrid nth] in P. lra.
Defined.

(** ** The pressure at the interfaces and its gradient (lines 50-51) *)

Lemma increasing_tail a l : increasing (a :: l) -> increasing l.
Proof.
  intros H i Hi. apply (H (S i)). simpl. lia.
Qed.

Lemma increasing_le l i j :
  increasing l -> (i <= j)%nat -> (j < length l)%nat -> l # i <= l # j.
Proof.
  intros H Hij Hj. induction Hij as [|j Hij IH]; [lra|].
  pose proof (H j Hj). specialize (IH ltac:(lia)). lra.
Qed.

(** Between two consecutive nodes the interpolant is the chord. *)
Lemma interp_seg_between x x0 f0 xp fp i :
  length fp = length xp -> increasing (x0 :: xp) ->
  (i < length xp)%nat ->
  (x0 :: xp) # i <= x < (x0 :: xp) # (S i) ->
  interp_seg x x0 f0 xp fp
  = ((f0 :: fp) # (S i) - (f0 :: fp) # i)
    / ((x0 :: xp) # (S i) - (x0 :: xp) # i) * (x - (x0 :: xp) # i)
    + (f0 :: fp) # i.
Proof.
  revert x0 f0 fp i.
  induction xp as [|x1 xp IH]; intros x0 f0 fp i Hl Hinc Hi Hx;
    [simpl in Hi; lia|].
  destruct fp as [|f1 fp]; [discriminate|].
  cbn [interp_seg]. destruct i as [|j].
  - cbn [nth] in *. destruct (Rlt_dec x x1); [reflexivity | lra].
  - assert (Hx1 : x1 <= x).
    { pose proof (increasing_le (x0 :: x1 :: xp) 1 (S j) Hinc
                    ltac:(lia) ltac:(simpl in *; lia)) as B.
      cbn [nth] in B, Hx. cbn [nth]. lra. }
    destruct (Rlt_dec x x1); [lra|].
    rewrite (IH x1 f1 fp j).
    + reflexivity.
    + simpl in Hl. lia.
    + now apply increasing_tail in Hinc.
    + simpl in Hi. lia.
    + exact Hx.
Qed.

(** Beyond the last node the interpolant holds the last value. *)
Lemma interp_seg_right x x0 f0 xp fp :
  length fp = length xp -> increasing (x0 :: xp) ->
  last (x0 :: xp) 0 <= x ->
  interp_seg x x0 f0 xp fp = last (f0 :: fp) 0.
Proof.
  revert x0 f0 fp.
  induction xp as [|x1 xp IH]; intros x0 f0 fp Hl Hinc Hx.
  - destruct fp; [reflexivity | discriminate].
  - destruct fp as [|f1 fp]; [discriminate|].
    cbn [interp_seg].
    change (last (x0 :: x1 :: xp) 0) with (last (x1 :: xp) 0) in Hx.
    change (last (f0 :: f1 :: fp) 0) with (last (f1 :: fp) 0).
    assert (x1 <= last (x1 :: xp) 0).
    { rewrite last_as_nth.
      apply (increasing_le (x1 :: xp) 0 (length (x1 :: xp) - 1)).
      - now apply increasing_tail in Hinc.
      - lia.
      - simpl. lia. }
    destruct (Rlt_dec x x1); [lra|].
    apply IH; [simpl in Hl; lia | now apply increasing_tail in Hinc | exact Hx].
Qed.

Lemma interp1_left x xp fp :
  (1 <= length xp)%nat -> length fp = length xp -> x <= xp # 0 ->
  interp1 x xp fp = fp # 0.
Proof.
  intros H1 Hl Hx. destruct xp as [|x0 xp]; [simpl in H1; lia|].
  destruct fp as [|f0 fp]; [discriminate|].
  cbn [interp1 nth] in *. destruct (Rle_dec x x0); [reflexivity | lra].
Qed.

Lemma interp1_between x xp fp i :
  length fp = length xp -> increasing xp -> (S i < length xp)%nat ->
  xp # i < x < xp # (S i) ->
  interp1 x xp fp
  = (fp # (S i) - fp # i) / (xp # (S i) - xp # i) * (x - xp # i) + fp # i.
Proof.
  intros Hl Hinc Hi Hx. destruct xp as [|x0 xp]; [simpl in Hi; lia|].
  destruct fp as [|f0 fp]; [discriminate|].
  cbn [interp1].
  assert (x0 <= (x0 :: xp) # i)
    by (apply (increasing_le (x0 :: xp) 0 i); [assumption | lia | lia]).
  destruct (Rle_dec x x0); [cbn [nth] in *; lra|].
  apply interp_seg_between; try assumption.
  - simpl in Hl. lia.
  - simpl in Hi. lia.
  - lra.
Qed.

Lemma interp1_right x xp fp :
  (1 <= length xp)%nat -> length fp = length xp -> increasing xp ->
  xp # 0 < x -> xp # (length xp - 1) <= x ->
  interp1 x xp fp = fp # (length xp - 1).
Proof.
  intros H1 Hl Hinc H0 Hx. destruct xp as [|x0 xp]; [simpl in H1; lia|].
  destruct fp as [|f0 fp]; [discriminate|].
  cbn [interp1]. cbn [nth] in H0.
  destruct (Rle_dec x x0); [lra|].
  rewrite interp_seg_right; try assumption.
  - rewrite last_as_nth. now rewrite Hl.
  - simpl in Hl. lia.
  - now rewrite last_as_nth.
Qed.

Lemma pgInt_values p i :
  valid p -> (S i < N p)%nat ->
  pgInt p # 0 = pg p # 0
  /\ pgInt p # (S i) = (pg p # i + pg p # (S i)) / 2
  /\ pgInt p # (N p) = pg p # (N p - 1).
Proof.
  intros Hv Hi. pose proof (valid_shapes p Hv) as Hshape.
  pose proof (v_N p Hv) as HN. pose proof (v_r_inc p Hv) as Hinc.
  pose proof (length_pg p Hshape) as Lp. fold (N p) in Lp.
  rewrite !pgInt_at by (try assumption; lia).
  split; [|split].
  - apply interp1_left; [unfold N in *; lia | exact Lp|].
    rewrite rInt_first by assumption.
    pose proof (Hinc 0%nat ltac:(fold (N p); lia)). lra.
  - rewrite rInt_interior by assumption.
    pose proof (Hinc i Hi) as Hstep.
    rewrite (interp1_between _ _ _ i); try assumption;
      [|split; lra].
    set (a := rgrid p # i) in *. set (b := rgrid p # (S i)) in *.
    replace (0.5 * (b + a) - a) with ((b - a) / 2) by lra.
    field. lra.
  - rewrite rInt_last by assumption.
    pose proof (Hinc (N p - 2)%nat ltac:(fold (N p); lia)) as Hstep.
    replace (S (N p - 2)) with (N p - 1)%nat in Hstep by lia.
    pose proof (increasing_le (rgrid p) 0 (N p - 1) Hinc ltac:(lia)
                  ltac:(fold (N p); lia)).
    apply interp1_right; try assumption; unfold N in *; try lia; lra.
Qed.

(** X4. On well-formed input the pressure at the innermost interface is the
    pressure of the first radius and the pressure at the outermost interface
    that of the last radius, because both interfaces lie outside the grid;
    the pressure at an interior interface is the mean of the pressures of
    the two radii it separates. *)
Theorem pressure_at_interfaces p i :
  valid p -> (S i < N p)%nat ->
  pgInt p # 0 = pg p # 0
  /\ pgInt p # (S i) = (pg p # i + pg p # (S i)) / 2
  /\ pgInt p # (N p) = pg p # (N p - 1).
Proof. apply pgInt_values. Qed.

Lemma pressure_at_interfaces_witness :
  pgInt grid124 # 0 = pg grid124 # 0
  /\ pgInt grid124 # 2 = (pg grid124 # 1 + pg grid124 # 2) / 2
  /\ pgInt grid124 # 3 = pg grid124 # 2.
Proof.
  assert (H : (2 < N grid124)%nat) by (unfold N, grid124; simpl; lia).
  exact (pressure_at_interfaces grid124 1 grid124_valid H).
Defined.

(** X5. On well-formed input the pressure gradient parameter is built on a
    centred difference at an interior radius, (pg[ir+1] - pg[ir-1]) / 2 over
    the cell width, and on half the one-sided difference at the two ends of
    the grid, each divided by 2 rhog Omega^2 r. *)
Theorem eta_differences p ir :
  valid p -> (ir < N p)%nat ->
  let D := 2 * rhog p # ir * OmegaK p # ir ^ 2 * rgrid p # ir in
  (ir = 0%nat ->
   eta p # ir = (pg p # 1 - pg p # 0) / 2 / (rgrid p # 1 - rgrid p # 0) / D)
  /\ (S ir = N p ->
      eta p # ir
      = (pg p # ir - pg p # (ir - 1)) / 2
        / (rgrid p # ir - rgrid p # (ir - 1)) / D)
  /\ ((0 < ir)%nat -> (S ir < N p)%nat ->
      eta p # ir
      = (pg p # (S ir) - pg p # (ir - 1)) / 2
        / (0.5 * (rgrid p # (S ir) - rgrid p # (ir - 1))) / D).
Proof.
  intros Hv H D. pose proof (valid_shapes p Hv) as Hshape.
  pose proof (v_N p Hv) as HN.
  destruct (dr_formulas p ir Hv H) as (W0 & W1 & W2).
  rewrite eta_at by assumption. fold D.
  split; [|split].
  - intros ->. rewrite W0 by reflexivity.
    destruct (pgInt_values p 0 Hv ltac:(lia)) as (P0 & P1 & _).
    rewrite P0, P1. f_equal. f_equal. lra.
  - intros E. rewrite W1 by assumption.
    destruct ir as [|k]; [lia|].
    destruct (pgInt_values p k Hv ltac:(lia)) as (_ & P1 & P2).
    rewrite E, P2, P1. replace (N p - 1)%nat with (S k) by lia.
    replace (S k - 1)%nat with k by lia. f_equal. f_equal. lra.
  - intros H0 H1. rewrite W2 by assumption.
    destruct ir as [|k]; [lia|].
    destruct (pgInt_values p k Hv ltac:(lia)) as (_ & P1 & _).
    destruct (pgInt_values p (S k) Hv ltac:(lia))
      as (_ & P2 & _).
    rewrite P1, P2. replace (S k - 1)%nat with k by lia.
    f_equal. f_equal. lra.
Qed.

Lemma eta_differences_witness :
  eta grid124 # 1
  = (pg grid124 # 2 - pg grid124 # 0) / 2
    / (0.5 * (rgrid grid124 # 2 - rgrid grid124 # 0))
    / (2 * rhog grid124 # 1 * OmegaK grid124 # 1 ^ 2 * rgrid grid124 # 1).
Proof.
  assert (H : (1 < N grid124)%nat) by (unfold N, grid124; simpl; lia).
  destruct (eta_differences grid124 1 grid124_valid H) as (_ & _ & I).
  apply I; unfold N, grid124; simpl; lia.
Defined.

(** ** The initial mass budget (lines 65-66) *)

Lemma mass_outward_step p ir :
  (ir < N p)%nat ->
  mass_outward_spec p ir = cell_mass p ir + mass_outward_spec p (S ir).
Proof.
  intros H. unfold mass_outward_spec.
  replace (N p - ir)%nat with (S (N p - S ir)) by lia.
  reflexivity.
Qed.

Lemma mass_outward_end p ir :
  (N p <= ir)%nat -> mass_outward_spec p ir = 0.
Proof.
  intros H. unfold mass_outward_spec.
  replace (N p - ir)%nat with 0%nat by lia. reflexivity.
Qed.

Lemma cell_mass_pos p ir : valid p -> (ir < N p)%nat -> 0 < cell_mass p ir.
Proof.
  intros Hv H. unfold cell_mass.
  pose proof (r_pos p Hv ir H). pose proof (dr_pos p Hv ir H).
  pose proof (dust_pos p Hv ir H).
  assert (0 < 2 * PI) by (pose proof PI_RGT_0; lra).
  apply Rmult_lt_0_compat; [apply Rmult_lt_0_compat;
    [apply Rmult_lt_0_compat|]|]; assumption.
Qed.

(** X6. On well-formed input the initial mass budget of a cell is the dust
    mass of the cell, 2 pi r dr SigmaDust, plus the budget of the next cell
    outward; the outermost cell holds only its own mass, and the budget
    decreases strictly from one cell to the next outward. *)
Theorem initial_budget_outward p ir :
  valid p -> (ir < N p)%nat ->
  0 < cell_mass p ir
  /\ (S ir = N p -> row 0 (massout (final p)) # ir = cell_mass p ir)
  /\ ((S ir < N p)%nat ->
      row 0 (massout (final p)) # ir
      = cell_mass p ir + row 0 (massout (final p)) # (S ir)
      /\ row 0 (massout (final p)) # (S ir)
         < row 0 (massout (final p)) # ir).
Proof.
  intros Hv H. pose proof (valid_shapes p Hv) as Hshape.
  pose proof (cell_mass_pos p ir Hv H) as Hc.
  split; [exact Hc|].
  rewrite massout_row0_at, massout0_as_sum, mass_outward_step by assumption.
  split.
  - intros E. rewrite mass_outward_end by lia. lra.
  - intros Hs.
    rewrite massout_row0_at, massout0_as_sum by assumption.
    split; lra.
Qed.

Lemma initial_budget_outward_witness :
  row 0 (massout (final coarse)) # 0
  = cell_mass coarse 0 + row 0 (massout (final coarse)) # 1
  /\ row 0 (massout (final coarse)) # 1 < row 0 (massout (final coarse)) # 0.
Proof.
  assert (H : (0 < N coarse)%nat) by (unfold N, coarse; simpl; lia).
  destruct (initial_budget_outward coarse 0 coarse_valid H) as (_ & _ & I).
  apply I. unfold N, coarse; simpl; lia.
Defined.

(** ** Bounds on the Stokes number (lines 75-79) *)

Lemma exp_ge_1 x : 0 <= x -> 1 <= exp x.
Proof.
  intros [H| <-]; [|rewrite exp_0; lra].
  assert (Hx : x <> 0) by lra. pose proof (exp_ineq1 x Hx). lra.
Qed.

Lemma stini_ge_st0 p it ir :
  valid p -> (it < M p)%nat -> (ir < N p)%nat ->
  st0 p # ir <= stini p it # ir.
Proof.
  intros Hv Hit H. pose proof (valid_shapes p Hv) as Hshape.
  rewrite stini_at by assumption.
  pose proof (st0_pos p Hv ir H) as Hs.
  pose proof (tgrowth_pos p Hv ir H) as Hg.
  pose proof (v_t_nonneg p Hv it Hit) as Ht.
  assert (0 <= tgrid p # it / tgrowth p # ir).
  { apply Rmult_le_pos; [assumption|]. left. now apply Rinv_0_lt_compat. }
  pose proof (exp_ge_1 _ H0).
  replace (st0 p # ir) with (st0 p # ir * 1) at 1 by ring.
  apply Rmult_le_compat_l; lra.
Qed.

(** X7. On well-formed input the returned Stokes number never exceeds the
    growth curve st0 exp(t / tgrowth) of its time and radius, row 0
    included, and never exceeds the larger of the turbulent fragmentation
    limit and the monomer Stokes number. *)
Theorem stokes_below_growth_curve p St Fl it ir :
  valid p -> pebble_predictor p = Some (St, Fl) ->
  (it < M p)%nat -> (ir < N p)%nat ->
  row it St # ir <= st0 p # ir * exp (tgrid p # it / tgrowth p # ir)
  /\ row it St # ir <= Rmax (stfrag p # ir) (st0 p # ir).
Proof.
  intros Hv Hret Hit H. apply (pebble_predictor_inv _ _ _ Hv) in Hret.
  destruct Hret as (Hshape & -> & _).
  pose proof (stini_ge_st0 p it ir Hv Hit H) as Hg.
  rewrite <- stini_at by assumption.
  destruct it as [|k].
  - rewrite st_row0_at by assumption. split; [exact Hg | apply Rmax_r].
  - destruct (st_value p Hv (S k) ir ltac:(lia) H) as (V1 & V0).
    set (a := stfrag p # ir) in *. set (c := stini p (S k) # ir) in *.
    set (s := st0 p # ir) in *.
    pose proof (Rmax_l a s). pose proof (Rmax_r a s).
    destruct (Req_dec_T (eta p # ir) 0) as [He|He].
    + rewrite (V0 He).
      pose proof (Rmin_l a c). pose proof (Rmin_r a c).
      split; apply Rmax_lub; lra.
    + rewrite (V1 He).
      set (b := 0.37 * vfrag p
                / (2 * Rabs (eta p # ir) * OmegaK p # ir * rgrid p # ir)).
      set (d := Z0 p # ir
                * (row (S k) (massout (final p)) # ir
                   / row 0 (massout (final p)) # ir)
                / Rabs (eta p # ir) / fff).
      pose proof (Rmin_l (Rmin (Rmin a b) c) d).
      pose proof (Rmin_r (Rmin a b) c). pose proof (Rmin_l (Rmin a b) c).
      pose proof (Rmin_l a b).
      split; apply Rmax_lub; lra.
Qed.

Lemma stokes_below_growth_curve_witness :
  row 2 (st (final coarse)) # 0
  <= st0 coarse # 0 * exp (tgrid coarse # 2 / tgrowth coarse # 0).
Proof.
  apply (stokes_below_growth_curve coarse (st (final coarse))
           (flux (final coarse)) 2 0).
  - exact coarse_valid.
  - apply pebble_predictor_returns. reflexivity.
  - unfold M, coarse; simpl; lia.
  - unfold N, coarse; simpl; lia.
Defined.

(** X8. On well-formed input, in a cell with a pressure gradient whose mass
    budget is exhausted or overdrawn at a pass, the Stokes number stored by
    that pass is the monomer Stokes number. *)
Theorem stokes_reset_when_exhausted p St Fl it ir :
  valid p -> pebble_predictor p = Some (St, Fl) ->
  (1 <= it < M p)%nat -> (ir < N p)%nat ->
  eta p # ir <> 0 ->
  row it (massout (final p)) # ir <= 0 ->
  row it St # ir = st0 p # ir.
Proof.
  intros Hv Hret Hit H He Hm. apply (pebble_predictor_inv _ _ _ Hv) in Hret.
  destruct Hret as (Hshape & -> & _).
  destruct (st_value p Hv it ir Hit H) as (V1 & _). rewrite (V1 He).
  set (d := Z0 p # ir
            * (row it (massout (final p)) # ir
               / row 0 (massout (final p)) # ir)
            / Rabs (eta p # ir) / fff).
  assert (Hd : d <= 0).
  { pose proof (Z0_pos p Hv ir H) as Hz.
    pose proof (massout_row0_pos p Hv ir H) as H0.
    pose proof (Rabs_pos_lt _ He) as Ha. pose proof fff_pos as Hf.
    unfold d.
    set (m := row it (massout (final p)) # ir) in *.
    set (m0 := row 0 (massout (final p)) # ir) in *.
    assert (Hk : 0 < Z0 p # ir * / m0 * / Rabs (eta p # ir) * / fff).
    { repeat apply Rmult_lt_0_compat; try assumption;
        now apply Rinv_0_lt_compat. }
    replace (Z0 p # ir * (m / m0) / Rabs (eta p # ir) / fff)
      with (m * (Z0 p # ir * / m0 * / Rabs (eta p # ir) * / fff))
      by (unfold Rdiv; ring).
    nra. }
  pose proof (st0_pos p Hv ir H) as Hs.
  match goal with |- Rmax (Rmin ?u d) _ = _ => pose proof (Rmin_r u d) end.
  apply Rmax_right. lra.
Qed.

Lemma stokes_reset_when_exhausted_witness :
  row 1 (st (final coarse)) # 1 = st0 coarse # 1.
Proof.
  apply (stokes_reset_when_exhausted coarse (st (final coarse))
           (flux (final coarse)) 1 1).
  - exact coarse_valid.
  - apply pebble_predictor_returns. reflexivity.
  - unfold M, coarse; simpl; lia.
  - unfold N, coarse; simpl; lia.
  - exact coarse_eta_last_nonzero.
  - left. exact coarse_mass_overdrawn.
Defined.

(** ** The mass budget over the passes (lines 73, 80-82) *)

(** X9. On well-formed input a cell whose pressure gradient parameter is
    zero has zero flux at every time, and its mass budget stays at its
    initial value. *)
Theorem flat_cell_keeps_its_mass p St Fl it ir :
  valid p -> pebble_predictor p = Some (St, Fl) ->
  (it < M p)%nat -> (ir < N p)%nat -> eta p # ir = 0 ->
  row it Fl # ir = 0
  /\ row it (massout (final p)) # ir = row 0 (massout (final p)) # ir.
Proof.
  intros Hv Hret Hit H He. apply (pebble_predictor_inv _ _ _ Hv) in Hret.
  destruct Hret as (Hshape & _ & ->).
  split; [now apply flux_zero_of_flat|].
  induction it as [|k IH]; [reflexivity|].
  rewrite massout_at by (try assumption; lia).
  replace (S k - 1)%nat with k by lia.
  rewrite IH by lia.
  rewrite (flux_zero_of_flat p Hv k ir ltac:(lia) H He). ring.
Qed.

Lemma flat_eta_zero : eta flat # 0 = 0.
Proof.
  pose proof flat_valid as Hv. pose proof (valid_shapes _ Hv) as Hshape.
  assert (HN2 : N flat = 2%nat) by reflexivity.
  assert (Hw : OmegaK flat # 0 = 8 * OmegaK flat # 1).
  { apply two_radii_OmegaK; [exact Hv | exact HN2|].
    unfold flat; cbn [rgrid nth]. lra. }
  assert (Hc : cs flat # 0 = cs flat # 1).
  { rewrite !cs_at by (try assumption; rewrite HN2; lia). reflexivity. }
  rewrite two_radii_eta by (try assumption; lia).
  rewrite !pg_at, !rhog_at by (try assumption; rewrite HN2; lia).
  rewrite Hw, Hc.
  change (SigmaGas flat # 0) with 10. change (SigmaGas flat # 1) with 80.
  unfold Rdiv. ring.
Qed.

Lemma flat_cell_keeps_its_mass_witness :
  row 1 (flux (final flat)) # 0 = 0
  /\ row 1 (massout (final flat)) # 0 = row 0 (massout (final flat)) # 0.
Proof.
  apply (flat_cell_keeps_its_mass flat (st (final flat)) (flux (final flat))
           1 0).
  - exact flat_valid.
  - apply pebble_predictor_returns. reflexivity.
  - unfold M, flat; simpl; lia.
  - unfold N, flat; simpl; lia.
  - exact flat_eta_zero.
Defined.

Lemma rate_le_capped p it ir :
  valid p -> (it < M p)%nat -> (ir < N p)%nat ->
  rate p it ir <= capped_rate p ir.
Proof.
  intros Hv Hit H. pose proof (valid_shapes p Hv) as Hshape.
  destruct (final_row_lengths p Hshape it Hit) as (Ls & _ & _).
  unfold rate, capped_rate.
  rewrite growth_cap_at
    by (try assumption; now apply length_drift_velocity).
  pose proof (Rmin_r (drift_velocity p (row it (st (final p))) # ir)
                (rgrid p # ir / tgrowth p # ir / fff)) as Hmin.
  pose proof (r_pos p Hv ir H). pose proof (dust_pos p Hv ir H).
  assert (0 < 2 * PI) by (pose proof PI_RGT_0; lra).
  apply Rmult_le_compat_r; [lra|].
  apply Rmult_le_compat_l; [|exact Hmin].
  apply Rmult_le_pos; lra.
Qed.

Lemma massout_factor p it ir :
  valid p -> (1 <= it)%nat -> (S it < M p)%nat -> (ir < N p)%nat ->
  row (S it) (massout (final p)) # ir
  = row it (massout (final p)) # ir
    * (1 - rate p it ir * (tgrid p # (S it) - tgrid p # it)
           / row 0 (massout (final p)) # ir).
Proof.
  intros Hv H1 Hit H. pose proof (valid_shapes p Hv) as Hshape.
  rewrite massout_at by (try assumption; lia).
  replace (S it - 1)%nat with it by lia.
  rewrite flux_as_rate by (try assumption; lia).
  pose proof (massout_row0_pos p Hv ir H).
  field. lra.
Qed.

(** X10. On well-formed input, from the second pass on, a pass multiplies
    the mass budget of a cell by 1 - rate dt / massout[0], rate being the
    capped drift rate 2 pi r v SigmaDust of the pass; the rate is never
    negative and never above 2 pi r (r / tgrowth / 30) SigmaDust. *)
Theorem budget_step_is_a_factor p it ir :
  valid p -> (1 <= it)%nat -> (S it < M p)%nat -> (ir < N p)%nat ->
  row (S it) (massout (final p)) # ir
  = row it (massout (final p)) # ir
    * (1 - rate p it ir * (tgrid p # (S it) - tgrid p # it)
           / row 0 (massout (final p)) # ir)
  /\ 0 <= rate p it ir <= capped_rate p ir.
Proof.
  intros Hv H1 Hit H.
  split; [now apply massout_factor|].
  split; [apply rate_nonneg | apply rate_le_capped]; try assumption; lia.
Qed.

Lemma budget_step_is_a_factor_witness :
  row 2 (massout (final coarse)) # 0
  = row 1 (massout (final coarse)) # 0
    * (1 - rate coarse 1 0 * (tgrid coarse # 2 - tgrid coarse # 1)
           / row 0 (massout (final coarse)) # 0).
Proof.
  apply (budget_step_is_a_factor coarse 1 0).
  - exact coarse_valid.
  - lia.
  - unfold M, coarse; simpl; lia.
  - unfold N, coarse; simpl; lia.
Defined.

Section NoOverdraw.
Variable p : pars.
Variable ir : nat.
Hypothesis Hv : valid p.
Hypothesis Hir : (ir < N p)%nat.
Hypothesis first_step :
  (1 < M p)%nat ->
  2 * PI * rgrid p # ir * drift_velocity p (st0 p) # ir * SigmaDust p # ir
  * (tgrid p # 1 - tgrid p # 0)
  <= mass_outward_spec p ir.
Hypothesis later_steps :
  forall it, (1 <= it)%nat -> (S it < M p)%nat ->
  capped_rate p ir * (tgrid p # (S it) - tgrid p # it)
  <= mass_outward_spec p ir.

Let Hshape : shapes_ok p = true := valid_shapes p Hv.

Lemma budget_stays_in_range it :
  (it < M p)%nat ->
  0 <= row it (massout (final p)) # ir <= row 0 (massout (final p)) # ir.
Proof.
  pose proof (massout_row0_pos p Hv ir Hir) as H0.
  assert (E0 : row 0 (massout (final p)) # ir = mass_outward_spec p ir).
  { rewrite massout_row0_at by assumption. now apply massout0_as_sum. }
  induction it as [|k IH]; intros Hit; [lra|].
  specialize (IH ltac:(lia)).
  destruct k as [|k].
  - rewrite massout_at by (try assumption; lia).
    change (1 - 1)%nat with 0%nat.
    pose proof (first_step Hit) as F.
    rewrite <- flux_row0_at in F by assumption.
    pose proof (flux_row0_nonneg p Hv ir Hir).
    pose proof (v_t_inc p Hv 0%nat Hit).
    assert (0 <= row 0 (flux (final p)) # ir
                 * (tgrid p # 1 - tgrid p # 0))
      by (apply Rmult_le_pos; lra).
    lra.
  - rewrite massout_factor by (try assumption; lia).
    pose proof (later_steps (S k) ltac:(lia) Hit) as L.
    pose proof (rate_nonneg p Hv (S k) ir ltac:(lia) Hir) as R0.
    pose proof (rate_le_capped p (S k) ir Hv ltac:(lia) Hir) as R1.
    pose proof (v_t_inc p Hv (S k) Hit) as Ht.
    assert (Hdt : 0 < tgrid p # (S (S k)) - tgrid p # (S k)) by lra.
    set (dt := tgrid p # (S (S k)) - tgrid p # (S k)) in *.
    set (m0 := row 0 (massout (final p)) # ir) in *.
    set (m := row (S k) (massout (final p)) # ir) in *.
    set (q := rate p (S k) ir) in *.
    assert (Hq : 0 <= q * dt <= m0).
    { split; [apply Rmult_le_pos; lra|].
      apply Rle_trans with (capped_rate p ir * dt); [|lra].
      apply Rmult_le_compat_r; lra. }
    assert (Hf : 0 <= q * dt / m0 <= 1).
    { split.
      - apply Rmult_le_pos; [lra|]. left. now apply Rinv_0_lt_compat.
      - apply div_le_of_le_mul; lra. }
    clearbody dt m0 m q. nra.
Qed.

End NoOverdraw.

(** X11. A cell is never overdrawn when the time steps are short enough: on
    well-formed input, if the initial flux of the cell times the first time
    step is at most its initial mass budget, and the capped rate
    2 pi r (r / tgrowth / 30) SigmaDust times every later time step is at
    most that budget, then at every time the budget of the cell lies
    between zero and its initial value, the flux is non-negative and at
    most the capped rate from the second row on, and the budget does not
    grow from one row to the next. *)
Theorem no_overdraw_for_short_steps p St Fl ir it :
  valid p -> pebble_predictor p = Some (St, Fl) -> (ir < N p)%nat ->
  ((1 < M p)%nat ->
   2 * PI * rgrid p # ir * drift_velocity p (st0 p) # ir * SigmaDust p # ir
   * (tgrid p # 1 - tgrid p # 0)
   <= mass_outward_spec p ir) ->
  (forall k, (1 <= k)%nat -> (S k < M p)%nat ->
   capped_rate p ir * (tgrid p # (S k) - tgrid p # k)
   <= mass_outward_spec p ir) ->
  (it < M p)%nat ->
  0 <= row it (massout (final p)) # ir <= row 0 (massout (final p)) # ir
  /\ 0 <= row it Fl # ir
  /\ ((1 <= it)%nat -> row it Fl # ir <= capped_rate p ir)
  /\ ((S it < M p)%nat ->
      row (S it) (massout (final p)) # ir
      <= row it (massout (final p)) # ir).
Proof.
  intros Hv Hret H F L Hit. apply (pebble_predictor_inv _ _ _ Hv) in Hret.
  destruct Hret as (Hshape & _ & ->).
  pose proof (budget_stays_in_range p ir Hv H F L it Hit) as B.
  pose proof (flux_nonneg_of_mass p Hv it ir Hit H (proj1 B)) as Hf.
  split; [exact B|]. split; [exact Hf|]. split.
  - intros H1. rewrite flux_as_rate by (try assumption; lia).
    pose proof (rate_nonneg p Hv it ir Hit H).
    pose proof (rate_le_capped p it ir Hv Hit H).
    pose proof (massout_row0_pos p Hv ir H) as Hm0.
    set (m0 := row 0 (massout (final p)) # ir) in *.
    set (m := row it (massout (final p)) # ir) in *.
    assert (0 <= m / m0 <= 1).
    { split.
      - apply Rmult_le_pos; [lra|]. left. now apply Rinv_0_lt_compat.
      - apply div_le_of_le_mul; lra. }
    set (f := m / m0) in *. set (q := rate p it ir) in *.
    clearbody f q m m0. nra.
  - intros Hs. rewrite (massout_at p Hshape (S it) ir) by (try assumption; lia).
    replace (S it - 1)%nat with it by lia.
    pose proof (v_t_inc p Hv it Hs).
    assert (0 <= row it (flux (final p)) # ir
                 * (tgrid p # (S it) - tgrid p # it))
      by (apply Rmult_le_pos; lra).
    lra.
Qed.

(** ** Rows and the time grid (lines 72-82) *)

Lemma rows_agree_on_common_times p ts it :
  (it < M p)%nat -> (it < length ts)%nat ->
  (forall j, (j <= it)%nat -> ts # j = tgrid p # j) ->
  row it (st (final (with_tgrid p ts))) = row it (st (final p))
  /\ row it (flux (final (with_tgrid p ts))) = row it (flux (final p))
  /\ row it (massout (final (with_tgrid p ts)))
     = row it (massout (final p)).
Proof.
  set (q := with_tgrid p ts).
  intros Hp Hq Hts.
  assert (HMq : (1 <= M q)%nat) by (unfold M, q; simpl; lia).
  destruct (final_row0 p ltac:(lia)) as (P1 & P2 & P3).
  destruct (final_row0 q HMq) as (Q1 & Q2 & Q3).
  assert (Z : row 0 (massout (final q)) = row 0 (massout (final p)))
    by (rewrite P2, Q2; reflexivity).
  induction it as [|k IH].
  - rewrite P1, P2, P3, Q1, Q2, Q3. repeat split; reflexivity.
  - destruct IH as (I1 & I2 & I3); [lia | lia | intros j Hj; apply Hts; lia|].
    destruct (final_rec p (S k) ltac:(lia)) as (A1 & A2 & A3).
    destruct (final_rec q (S k)) as (B1 & B2 & B3);
      [unfold M, q; simpl; lia|].
    replace (S k - 1)%nat with k in A1, B1 by lia.
    assert (E1 : row (S k) (massout (final q))
                 = row (S k) (massout (final p))).
    { rewrite A1, B1, I2, I3.
      change (tgrid q) with ts.
      rewrite (Hts (S k)), (Hts k) by lia. reflexivity. }
    assert (E2 : row (S k) (st (final q)) = row (S k) (st (final p))).
    { rewrite A2, B2. unfold stdrift, stini. rewrite E1, Z.
      change (tgrid q) with ts. rewrite (Hts (S k)) by lia. reflexivity. }
    split; [exact E2|]. split; [|exact E1].
    rewrite A3, B3, E1, E2, Z. reflexivity.
Qed.

(** X12. A row of the result depends on the time grid only through the
    times up to its own: row 0 is the same for any two calls that differ in
    the time grid alone, and two such calls whose time grids agree on the
    entries 0 .. it return the same row it of the Stokes number and of the
    flux. *)
Theorem rows_ignore_later_times p ts St Fl St' Fl' it :
  pebble_predictor p = Some (St, Fl) ->
  pebble_predictor (with_tgrid p ts) = Some (St', Fl') ->
  (it < M p)%nat -> (it < length ts)%nat ->
  (row 0 St' = row 0 St /\ row 0 Fl' = row 0 Fl)
  /\ ((forall j, (j <= it)%nat -> ts # j = tgrid p # j) ->
      row it St' = row it St /\ row it Fl' = row it Fl).
Proof.
  intros Hp Hq Hit Hl.
  rewrite pebble_predictor_with_tgrid in Hq. unfold pebble_predictor in Hp.
  destruct (statics_np p) as [sf|]; cbn [bind] in Hp, Hq; [|discriminate].
  exact (evolve_np_causal p sf (tgrid p) ts St Fl St' Fl' it Hp Hq Hit Hl).
Qed.

Lemma rows_ignore_later_times_witness :
  row 1 (st (final (with_tgrid coarse [0; 1e15])))
  = row 1 (st (final coarse))
  /\ row 1 (flux (final (with_tgrid coarse [0; 1e15])))
     = row 1 (flux (final coarse)).
Proof.
  destruct (rows_ignore_later_times coarse [0; 1e15]
              (st (final coarse)) (flux (final coarse))
              (st (final (with_tgrid coarse [0; 1e15])))
              (flux (final (with_tgrid coarse [0; 1e15]))) 1)
    as (_ & E).
  - apply pebble_predictor_returns. reflexivity.
  - apply pebble_predictor_returns. reflexivity.
  - unfold M, coarse; simpl; lia.
  - simpl; lia.
  - apply E. intros j Hj.
    destruct j as [|[|j]]; [reflexivity | reflexivity | lia].
Defined.

(** ** The fragmentation limit and the initial flux (lines 53, 68-69) *)

(** X13. On well-formed input the turbulent fragmentation limit scales as
    vfrag^2 / alpha: for two calls with the same temperature profile,
    stfrag * alpha / vfrag^2 is the same, whatever the grids, the star and
    the surface densities. *)
Theorem stfrag_scaling p q ir :
  valid p -> valid q -> T p = T q -> (ir < N p)%nat -> (ir < N q)%nat ->
  stfrag p # ir * alpha p / vfrag p ^ 2
  = stfrag q # ir * alpha q / vfrag q ^ 2.
Proof.
  intros Hp Hq HT Hip Hiq.
  pose proof (valid_shapes p Hp) as Sp. pose proof (valid_shapes q Hq) as Sq.
  pose proof (cs_pos p Hp ir Hip) as Hc.
  assert (Ec : cs q # ir = cs p # ir).
  { rewrite !cs_at by assumption. now rewrite HT. }
  rewrite !stfrag_at by assumption. rewrite Ec.
  pose proof (v_alpha p Hp). pose proof (v_alpha q Hq).
  pose proof (v_vfrag p Hp). pose proof (v_vfrag q Hq).
  replace 0.37 with (37 / 100) by lra.
  field. repeat split; lra.
Qed.

Lemma stfrag_scaling_witness :
  stfrag coarse # 0 * alpha coarse / vfrag coarse ^ 2
  = stfrag fragile # 0 * alpha fragile / vfrag fragile ^ 2.
Proof.
  apply (stfrag_scaling coarse fragile 0).
  - exact coarse_valid.
  - exact fragile_valid.
  - reflexivity.
  - unfold N, coarse; simpl; lia.
  - unfold N, fragile; simpl; lia.
Defined.

(** X14. The growth cap of the later rows is not applied to row 0: on
    well-formed input the initial flux is 2 pi r v SigmaDust with v the
    drift velocity of the monomers itself, which is at least the capped
    rate and strictly above it wherever that velocity exceeds
    r / tgrowth / 30. *)
Theorem initial_flux_is_uncapped p St Fl ir :
  valid p -> pebble_predictor p = Some (St, Fl) -> (ir < N p)%nat ->
  let v := 2 * Rabs (eta p # ir) * OmegaK p # ir * rgrid p # ir
           * st0 p # ir / (1 + st0 p # ir ^ 2) in
  row 0 Fl # ir = 2 * PI * rgrid p # ir * v * SigmaDust p # ir
  /\ rate p 0 ir <= row 0 Fl # ir
  /\ (rgrid p # ir / tgrowth p # ir / fff < v ->
      capped_rate p ir < row 0 Fl # ir).
Proof.
  intros Hv Hret H v. apply (pebble_predictor_inv _ _ _ Hv) in Hret.
  destruct Hret as (Hshape & _ & ->).
  pose proof (length_st0 p Hshape) as L0.
  assert (Ef : row 0 (flux (final p)) # ir
               = 2 * PI * rgrid p # ir * v * SigmaDust p # ir).
  { rewrite flux_row0_at, drift_velocity_at by assumption. reflexivity. }
  pose proof (r_pos p Hv ir H). pose proof (dust_pos p Hv ir H).
  assert (0 < 2 * PI) by (pose proof PI_RGT_0; lra).
  assert (K : 0 < 2 * PI * rgrid p # ir) by (apply Rmult_lt_0_compat; lra).
  split; [exact Ef|]. split.
  - rewrite Ef. unfold rate.
    destruct (final_row0 p (v_M p Hv)) as (E0 & _). rewrite E0.
    rewrite growth_cap_at, drift_velocity_at
      by (try assumption; now apply length_drift_velocity).
    fold v.
    pose proof (Rmin_l v (rgrid p # ir / tgrowth p # ir / fff)).
    apply Rmult_le_compat_r; [lra|].
    apply Rmult_le_compat_l; lra.
  - intros Hlt. rewrite Ef. unfold capped_rate.
    apply Rmult_lt_compat_r; [assumption|].
    apply Rmult_lt_compat_l; assumption.
Qed.

Lemma initial_flux_is_uncapped_witness :
  rate coarse 0 1 <= row 0 (flux (final coarse)) # 1.
Proof.
  apply (initial_flux_is_uncapped coarse (st (final coarse))
           (flux (final coarse)) 1).
  - exact coarse_valid.
  - apply pebble_predictor_returns. reflexivity.
  - unfold N, coarse; simpl; lia.
Defined.

(** ** The fine march: time steps that never overdraw the outer cell *)

Lemma fine_valid : valid fine.
Proof. unfold fine, with_tgrid, coarse. check_valid. Qed.

Lemma coarse_OmegaK_last_lower : 2e-8 <= OmegaK coarse # 1.
Proof.
  pose proof (valid_shapes _ coarse_valid) as Hshape.
  assert (H1 : (1 < N coarse)%nat) by (unfold N, coarse; simpl; lia).
  rewrite OmegaK_at by assumption.
  change (rgrid coarse # 1) with 6e13. change (Mstar coarse) with 2e33.
  rewrite <- (sqrt_square 2e-8) at 1 by lra.
  apply sqrt_le_1_alt. unfold Grav. lra.
Qed.

Lemma coarse_cs_last_upper : cs coarse # 1 ^ 2 <= 7.2e9.
Proof.
  pose proof (valid_shapes _ coarse_valid) as Hshape.
  assert (H1 : (1 < N coarse)%nat) by (unfold N, coarse; simpl; lia).
  rewrite cs_at by assumption. change (T coarse # 1) with 200.
  rewrite pow2_sqrt by (unfold k_b, m_p; lra).
  unfold k_b, m_p. lra.
Qed.

Lemma coarse_drift_last_upper :
  drift_velocity coarse (st0 coarse) # 1 <= 14000.
Proof.
  pose proof coarse_valid as Hv. pose proof (valid_shapes _ Hv) as Hshape.
  assert (H1 : (1 < N coarse)%nat) by (unfold N, coarse; simpl; lia).
  eapply Rle_trans;
    [apply (drift_velocity_le coarse Hv); [now apply length_st0 | exact H1]|].
  rewrite coarse_eta_last. change (rgrid coarse # 1) with 6e13.
  pose proof coarse_OmegaK_last_lower as Hw.
  pose proof coarse_cs_last_upper as Hc. pose proof coarse_cs_last as Hc0.
  set (w := OmegaK coarse # 1) in *. set (c2 := cs coarse # 1 ^ 2) in *.
  clearbody w c2.
  replace 4.5e13 with 45000000000000 by lra.
  replace 6e13 with 60000000000000 by lra.
  replace (7 * c2 / (4 * 45000000000000 * w ^ 2 * 60000000000000) * w
           * 60000000000000)
    with (7 * c2 / (180000000000000 * w)) by (field; lra).
  apply div_le_of_le_mul; [lra|]. nra.
Qed.

Lemma coarse_cap_last :
  rgrid coarse # 1 / tgrowth coarse # 1 / fff <= 6000.
Proof.
  pose proof coarse_valid as Hv. pose proof (valid_shapes _ Hv) as Hshape.
  assert (H1 : (1 < N coarse)%nat) by (unfold N, coarse; simpl; lia).
  pose proof (tgrowth_denominator_pos coarse Hv 1 H1) as HD.
  rewrite tgrowth_at by assumption.
  rewrite Z0_at in * by assumption.
  change (rgrid coarse # 1) with 6e13 in *.
  change (SigmaDust coarse # 1) with 0.1 in *.
  change (SigmaGas coarse # 1) with 10 in *.
  change (alpha coarse) with 1e-3 in *.
  destruct coarse_OmegaK_last as (Hw0 & Hw1).
  assert (P1 : Rpower (1e-3 / 1e-4) 0.3333 <= 10).
  { replace (1e-3 / 1e-4) with 10 by lra.
    apply Rle_trans with (Rpower 10 1); [apply Rle_Rpower; lra|].
    rewrite Rpower_1 by lra. lra. }
  assert (P2 : Rpower (6e13 / au) (- 0.3333) <= 1).
  { rewrite <- (Rpower_O (6e13 / au)) by (unfold au; lra).
    apply Rle_Rpower; [unfold au; lra | lra]. }
  pose proof (Rpower_pos (1e-3 / 1e-4) 0.3333) as Q1.
  pose proof (Rpower_pos (6e13 / au) (- 0.3333)) as Q2.
  set (a := Rpower (1e-3 / 1e-4) 0.3333) in *.
  set (b := Rpower (6e13 / au) (- 0.3333)) in *.
  set (w := OmegaK coarse # 1) in *. clearbody a b w.
  unfold fff.
  replace (0.1 / 10) with (1 / 100) in * by lra.
  replace 6e13 with 60000000000000 by lra.
  replace (60000000000000 / (1 / (a * (1 / 100) * w * b)) / 30)
    with (20000000000 * (a * w * b)) by (field; nra).
  assert (a * w <= 10 * 3e-8) by (apply Rmult_le_compat; lra).
  assert (0 <= a * w) by (apply Rmult_le_pos; lra).
  assert (a * w * b <= 10 * 3e-8 * 1) by (apply Rmult_le_compat; lra).
  lra.
Qed.

Lemma no_overdraw_for_short_steps_witness :
  0 <= row 2 (massout (final fine)) # 1 <= row 0 (massout (final fine)) # 1
  /\ 0 <= row 2 (flux (final fine)) # 1.
Proof.
  assert (HN : (1 < N fine)%nat) by (unfold N, fine, coarse; simpl; lia).
  assert (HM : (2 < M fine)%nat) by (unfold M, fine; simpl; lia).
  assert (Em : mass_outward_spec fine 1
               = 2 * PI * 6e13 * 4.5e13 * 0.1).
  { unfold mass_outward_spec. change (N fine - 1)%nat with 1%nat.
    cbn [seq map vsum fold_right].
    rewrite (two_radii_dr fine fine_valid eq_refl) by lia.
    change (rgrid fine # 1) with 6e13. change (rgrid fine # 0) with 1.5e13.
    change (SigmaDust fine # 1) with 0.1. lra. }
  pose proof PI_gt_3 as Hpi.
  destruct (no_overdraw_for_short_steps fine (st (final fine))
              (flux (final fine)) 1 2) as (B & F & _).
  - exact fine_valid.
  - apply pebble_predictor_returns. reflexivity.
  - exact HN.
  - intros _. rewrite Em.
    change (drift_velocity fine (st0 fine))
      with (drift_velocity coarse (st0 coarse)).
    change (rgrid fine # 1) with 6e13. change (SigmaDust fine # 1) with 0.1.
    change (tgrid fine # 1) with 1e9. change (tgrid fine # 0) with 0.
    pose proof coarse_drift_last_upper as Hd.
    set (v := drift_velocity coarse (st0 coarse) # 1) in *. clearbody v.
    assert (PI * v <= PI * 14000) by (apply Rmult_le_compat_l; lra).
    lra.
  - intros k Hk1 Hk2. rewrite Em.
    assert (k = 1%nat) by (unfold M, fine in Hk2; simpl in Hk2; lia).
    subst k. unfold capped_rate.
    change (tgrowth fine) with (tgrowth coarse).
    change (rgrid fine # 1) with (rgrid coarse # 1).
    change (SigmaDust fine # 1) with 0.1.
    change (tgrid fine # 2) with 2e9. change (tgrid fine # 1) with 1e9.
    pose proof coarse_cap_last as Hc.
    pose proof (cap_pos coarse coarse_valid 1
                  ltac:(unfold N, coarse; simpl; lia)) as Hc0.
    set (c := rgrid coarse # 1 / tgrowth coarse # 1 / fff) in *.
    change (rgrid coarse # 1) with 6e13. clearbody c.
    assert (PI * c <= PI * 6000) by (apply Rmult_le_compat_l; lra).
    lra.
  - exact HM.
  - split; [exact B | exact F].
Defined.
